(** * NitroSniper: the gift redeemer of [nitro_redeemer.py]

    A shallow embedding of the three classes of [nitro_redeemer.py]:
    - [Responses], the enumeration of API outcomes;
    - [ErrorHandler], the substring classifier of response bodies;
    - [NitroRedeemer], the redemption loop over the token dictionary and
      the regular-expression based code extractor.

    Conventions of the embedding.
    - A Python [str] is a [string]; each character stands for the code
      point of the same number (U+0000 to U+00FF).
    - [time.time()] is a rational ([Q]), and so is a finite number read
      from JSON; the rounding of floating-point subtraction is not
      modelled.  The [retry_after] field of a reply is any JSON value, and
      is stored as the delay as it comes.
    - A [dict] whose iteration order is observed (the token dictionary,
      the table of error texts) is an association list in insertion order;
      the cache, only ever looked up and written, is a [gmap].
    - The clock and the HTTP server are an environment of oracles indexed by
      the number of calls made so far; the engine threads its own fields
      and a record of the calls made to the outside world.
    - Every call of [redeem_code] runs to completion before the next one
      starts: the interleaving of coroutines at [await] is not modelled. *)

From stdpp Require Import gmap strings list.
From Stdlib Require Import Ascii String QArith Qround Lqa.

Close Scope Q_scope.
Open Scope string_scope.

(** ** The enumeration [Responses] *)

Inductive Responses : Type :=
  | RATE_LIMITED
  | INVALID_GIFT
  | ALREADY_CLAIMED
  | NO_PAYMENT_SOURCE
  | ALREADY_PURCHASED
  | ACCESS_DENIED
  | NOT_VERIFIED
  | CLAIMED
  | IN_CACHE.

#[global] Instance Responses_eq_dec : EqDecision Responses.
Proof. solve_decision. Defined.

(** The [value] of each enumeration member. *)
Definition Responses_value (r : Responses) : Z :=
  match r with
  | RATE_LIMITED => 0
  | INVALID_GIFT => 1
  | ALREADY_CLAIMED => 2
  | NO_PAYMENT_SOURCE => 3
  | ALREADY_PURCHASED => 4
  | ACCESS_DENIED => 5
  | NOT_VERIFIED => 6
  | CLAIMED => 7
  | IN_CACHE => 8
  end%Z.

(** ** Strings: the [in] operator of Python on [str] *)

(** [str_in error response_text] is [error in response_text]: some suffix
    of [response_text] starts with [error]. *)
Fixpoint str_in (error response_text : string) : bool :=
  if String.prefix error response_text then true
  else match response_text with
       | EmptyString => false
       | String _ tl => str_in error tl
       end.

(** The mathematical reading of [in]: an occurrence with some text before
    and some text after. *)
Definition occurs_in (error response_text : string) : Prop :=
  exists before after : string, response_text = before ++ error ++ after.

(** ** The class [ErrorHandler] *)

Module ErrorHandler.

(** The JSON error text [{"message": "<message>", "code": <code>}] as the
    API prints it; [dquote] is the one-character string of code 34. *)
Definition dquote : string := String (Ascii.ascii_of_nat 34) EmptyString.

Definition api_error (message code : string) : string :=
  "{" ++ dquote ++ "message" ++ dquote ++ ": " ++ dquote ++ message ++ dquote
      ++ ", " ++ dquote ++ "code" ++ dquote ++ ": " ++ code ++ "}".

(** [self.error_responses], in insertion order. *)
Definition error_responses : list (string * Responses) :=
  [ (api_error "Unknown Gift Code" "10038", INVALID_GIFT);
    (api_error "This gift has been redeemed already." "50050", ALREADY_CLAIMED);
    (api_error "Payment source required to redeem gift." "50070",
      NO_PAYMENT_SOURCE);
    (api_error "Already purchased" "100011", ALREADY_PURCHASED);
    (api_error
       "You need to verify your account in order to perform this action."
       "40002", NOT_VERIFIED);
    ("You are being rate limited", RATE_LIMITED);
    ("Access denied", ACCESS_DENIED) ].

(** The [for error in self.error_responses] loop of [handle_errors] over
    a table [tbl]; falling off the end returns [CLAIMED]. *)
Fixpoint handle_errors_in (tbl : list (string * Responses))
    (response_text : string) : Responses :=
  match tbl with
  | [] => CLAIMED
  | (error, r) :: tbl' =>
      if str_in error response_text then r
      else handle_errors_in tbl' response_text
  end.

Definition handle_errors (response_text : string) : Responses :=
  handle_errors_in error_responses response_text.

End ErrorHandler.

(** ** Regular expressions: the fragment of [re] that [gift_re] uses *)

Module Re.

(** Syntax of the patterns: literal characters, [.], [\w], concatenation,
    alternation (left alternative first) and greedy bounded repetition
    [r{lo,hi}]. *)
Inductive regex : Type :=
  | Eps
  | Chr (c : ascii)
  | Dot
  | Word
  | Cat (r1 r2 : regex)
  | Alt (r1 r2 : regex)
  | Rep (r : regex) (lo hi : nat).

(** [\w] on a [str] pattern: the alphanumeric code points and the
    underscore (here for the code points below 256). *)
Definition is_word (c : ascii) : bool :=
  let n := nat_of_ascii c in
  (((48 <=? n) && (n <=? 57)) || ((65 <=? n) && (n <=? 90)) || (n =? 95)
   || ((97 <=? n) && (n <=? 122))
   || (n =? 170) || (n =? 178) || (n =? 179) || (n =? 181) || (n =? 185)
   || (n =? 186) || ((188 <=? n) && (n <=? 190))
   || ((192 <=? n) && (n <=? 214)) || ((216 <=? n) && (n <=? 246))
   || (248 <=? n))%nat.

(** [.] without [re.DOTALL]: any character but the line feed. *)
Definition is_dot (c : ascii) : bool := negb (nat_of_ascii c =? 10)%nat.

(** Backtracking matcher in continuation-passing style: [exec r s k] tries
    the ways [r] can match a prefix of [s] in the order of the [re] engine
    and gives the first for which the continuation [k] accepts the rest. *)
Fixpoint exec (r : regex) (s : string) (k : string -> option string)
    {struct r} : option string :=
  match r with
  | Eps => k s
  | Chr c =>
      match s with
      | String a s' => if Ascii.eqb a c then k s' else None
      | EmptyString => None
      end
  | Dot =>
      match s with
      | String a s' => if is_dot a then k s' else None
      | EmptyString => None
      end
  | Word =>
      match s with
      | String a s' => if is_word a then k s' else None
      | EmptyString => None
      end
  | Cat r1 r2 => exec r1 s (fun s' => exec r2 s' k)
  | Alt r1 r2 =>
      match exec r1 s k with
      | Some rest => Some rest
      | None => exec r2 s k
      end
  | Rep r1 lo hi =>
      (fix rep (lo hi : nat) (s : string) (k : string -> option string)
           {struct hi} : option string :=
         match hi with
         | O => if (lo =? 0)%nat then k s else None
         | S hi' =>
             match exec r1 s (fun s' => rep (Nat.pred lo) hi' s' k) with
             | Some rest => Some rest
             | None => if (lo =? 0)%nat then k s else None
             end
         end) lo hi s k
  end.

(** [pattern.match(s)]: the number of characters of the match that starts
    at the beginning of [s], if there is one. *)
Definition match_len (r : regex) (s : string) : option nat :=
  match exec r s Some with
  | Some rest => Some (String.length s - String.length rest)%nat
  | None => None
  end.

(** [pattern.finditer(text)], as the list of the [group(0)] of the matches:
    leftmost match first, the search resuming where the match ended.
    [skip] counts the characters still inside the last match.  A pattern
    that matches the empty string yields it and moves on by one
    character; [gift_re] never does. *)
Fixpoint finditer_from (r : regex) (skip : nat) (text : string)
    : list string :=
  match text with
  | EmptyString =>
      match skip, match_len r text with
      | O, Some _ => [EmptyString]
      | _, _ => []
      end
  | String _ text' =>
      match skip with
      | S skip' => finditer_from r skip' text'
      | O =>
          match match_len r text with
          | Some n => String.substring 0 n text
                        :: finditer_from r (Nat.pred n) text'
          | None => finditer_from r 0 text'
          end
      end
  end.

Definition finditer (r : regex) (text : string) : list string :=
  finditer_from r 0 text.

(** The pattern has no match that starts inside [before] when the text
    is [before ++ text]. *)
Fixpoint no_match_inside (r : regex) (before text : string) : bool :=
  match before with
  | EmptyString => true
  | String _ before' =>
      match match_len r (before ++ text) with
      | Some _ => false
      | None => no_match_inside r before' text
      end
  end.

(** Every character of [s] is a word character. *)
Fixpoint all_word (s : string) : bool :=
  match s with
  | EmptyString => true
  | String c s' => is_word c && all_word s'
  end.

(** What [re.compile] reads in a link: [.] is the wildcard, every other
    character of the three links (letters and [/]) stands for itself. *)
Fixpoint of_link (link : string) : regex :=
  match link with
  | EmptyString => Eps
  | String c link' =>
      Cat (if Ascii.eqb c "."%char then Dot else Chr c) (of_link link')
  end.

(** ["|".join(links)] read as a pattern. *)
Fixpoint alternatives (links : list string) : regex :=
  match links with
  | [] => Eps
  | [l] => of_link l
  | l :: (_ :: _) as links' => Alt (of_link l) (alternatives links')
  end.

End Re.

(** [text.replace(old, '')] for a non-empty [old]: the occurrences of [old]
    are removed from left to right, without overlap; [skip] counts the
    characters of the current occurrence still to drop. *)
Fixpoint str_remove_from (old : string) (skip : nat) (text : string) : string :=
  match text with
  | EmptyString => EmptyString
  | String c text' =>
      match skip with
      | S skip' => str_remove_from old skip' text'
      | O =>
          if String.prefix old text
          then str_remove_from old (Nat.pred (String.length old)) text'
          else String c (str_remove_from old 0 text')
      end
  end.

Definition str_remove (old text : string) : string :=
  str_remove_from old 0 text.

(** ** Numbers: [round] on a float *)

(** [round(x)]: the nearest integer, a tie going to the even one. *)
Definition py_round (x : Q) : Z :=
  let f := Qfloor x in
  match Qcompare (x - inject_Z f)%Q (1 # 2)%Q with
  | Lt => f
  | Gt => (f + 1)%Z
  | Eq => if Z.even f then f else (f + 1)%Z
  end.

(** ** Dictionaries in insertion order *)

Section Dict.
Context {V : Type}.

(** [d[k]], [None] standing for [KeyError]. *)
Fixpoint dict_get (k : string) (d : list (string * V)) : option V :=
  match d with
  | [] => None
  | (k', v) :: d' => if String.eqb k' k then Some v else dict_get k d'
  end.

(** The entries left by [del d[k]]. *)
Definition dict_del (k : string) (d : list (string * V)) : list (string * V) :=
  List.filter (fun kv => negb (String.eqb (fst kv) k)) d.

(** [list(d)]: the keys in insertion order. *)
Definition dict_keys (d : list (string * V)) : list string := List.map fst d.
End Dict.

(** ** The outside world: the clock and the HTTP server *)

(** The request of one attempt: the gift code templated into the URL, the
    [Authorization] header and the [payment_source_id] of the payload (the
    other headers and [channel_id] are constants). *)
Record Request : Type := mkRequest {
  gift_code : string;
  authorization : string;
  payment_source_id : option string
}.

Definition url (req : Request) : string :=
  "https://discordapp.com/api/v8/entitlements/gift-codes/" ++ gift_code req
    ++ "/redeem".

(** A value as [json.loads] builds it: [None], a [bool], an [int] or a
    [float] (the constants [NaN], [Infinity] and [-Infinity] are accepted),
    a [str], a [list] or a [dict]; the items of a list and of a dictionary
    held in [retry_after] are never read. *)
Inductive Value : Type :=
  | VNone
  | VBool (b : bool)
  | VNumber (q : Q)
  | VNaN
  | VInfinity (negative : bool)
  | VStr (s : string)
  | VList
  | VDict.

(** [x <= v] for a float [x] that is a number: [None] when the comparison
    raises [TypeError], which it does unless [v] is an [int], a [float] or
    a [bool] ([True] is 1 and [False] is 0). *)
Definition float_le (x : Q) (v : Value) : option bool :=
  match v with
  | VNumber q => Some (Qle_bool x q)
  | VBool b => Some (Qle_bool x (if b then 1 else 0))
  | VNaN => Some false
  | VInfinity negative => Some (negb negative)
  | VNone | VStr _ | VList | VDict => None
  end.

(** The parsed body of a reply: a JSON object, of which only the key
    [retry_after] matters ([None] when the object has no such key), or any
    other JSON value. *)
Inductive Body : Type :=
  | Object (retry_after : option Value)
  | NotObject.

(** What [request.json()] gives: [None] when it raises (the body is not
    JSON), otherwise the parsed body. *)
Record Reply : Type := mkReply {
  text : string;
  json : option Body
}.

(** The environment: [time_at n] is the value of the [n]-th call of
    [time.time()] and [post_at n req] the reply to the [n]-th call of
    [session.post] ([None] when the call raises). *)
Record Env : Type := mkEnv {
  time_at : nat -> Q;
  post_at : nat -> Request -> option Reply
}.

(** What the engine has done to the world so far: the number of clock
    readings, the requests posted (oldest first) and the lines printed. *)
Record World : Type := mkWorld {
  ticks : nat;
  sent : list Request;
  stdout : list string
}.

(** ** The class [NitroRedeemer] *)

Module NitroRedeemer.

Record RateLimits : Type := mkRateLimits {
  rate_timestamp : Q;
  rate_delay : Value
}.

(** The mutable attributes of an instance ([self]). *)
Record t : Type := mkSelf {
  tokens : list (string * option string);
  cache : gmap string Responses;
  rate_limits : RateLimits;
  data : list Z
}.

(** [NitroRedeemer(tokens, error_handler)]. *)
Definition init (tokens : list (string * option string)) : t :=
  {| tokens := tokens;
     cache := ∅;
     rate_limits := {| rate_timestamp := 0; rate_delay := VNumber 0 |};
     data := [] |}.

Definition links : list string :=
  ["discord.gift"; "discordapp.com/gifts"; "discord.com/gifts"].

(** [re.compile(fr'({"|".join(self.links)})/\w{{16,24}}')] *)
Definition gift_re : Re.regex :=
  Re.Cat (Re.alternatives links) (Re.Cat (Re.Chr "/") (Re.Rep Re.Word 16 24)).

Definition remove_links (text : string) : string :=
  fold_left (fun text link => str_remove (link ++ "/") text) links text.

Definition find_codes (text : string) : list string :=
  List.map remove_links (Re.finditer gift_re text).

(** *** The monad of [redeem_code]: state of [self] and of the world,
    and exceptions *)

Inductive Exn : Type :=
  | KeyError (key : string)
  | ClientError
  | JSONDecodeError
  | TypeError.

Inductive Result (A : Type) : Type :=
  | Ok (a : A)
  | Raise (e : Exn).
Arguments Ok {A} a.
Arguments Raise {A} e.

Definition M (A : Type) : Type := t -> World -> Result A * t * World.

Definition ret {A} (a : A) : M A := fun self w => (Ok a, self, w).

Definition raise {A} (e : Exn) : M A := fun self w => (Raise e, self, w).

Definition bind {A B} (m : M A) (k : A -> M B) : M B :=
  fun self w =>
    match m self w with
    | (Ok a, self', w') => k a self' w'
    | (Raise e, self', w') => (Raise e, self', w')
    end.

Notation "x <- m ;; k" := (bind m (fun x => k))
  (at level 100, m at next level, right associativity).
Notation "m ;;; k" := (bind m (fun _ => k))
  (at level 100, right associativity).

(** [not payment_id]: [None] and the empty string are false. *)
Definition truthy (payment_id : option string) : bool :=
  match payment_id with
  | None => false
  | Some s => negb (String.eqb s EmptyString)
  end.

Section Redeem.
Variable env : Env.

(** [time.time()] *)
Definition time_time : M Q :=
  fun self w =>
    (Ok (time_at env (ticks w)), self,
     {| ticks := S (ticks w); sent := sent w; stdout := stdout w |}).

(** [await self.session.post(url, headers=headers, json=payload)] *)
Definition session_post (req : Request) : M Reply :=
  fun self w =>
    let w' := {| ticks := ticks w; sent := sent w ++ [req];
                 stdout := stdout w |} in
    match post_at env (List.length (sent w)) req with
    | Some reply => (Ok reply, self, w')
    | None => (Raise ClientError, self, w')
    end.

Definition print (line : string) : M unit :=
  fun self w =>
    (Ok tt, self,
     {| ticks := ticks w; sent := sent w; stdout := stdout w ++ [line] |}).

(** [self.tokens[token]] *)
Definition tokens_getitem (token : string) : M (option string) :=
  fun self w =>
    match dict_get token (tokens self) with
    | Some payment_id => (Ok payment_id, self, w)
    | None => (Raise (KeyError token), self, w)
    end.

(** [del self.tokens[token]] *)
Definition tokens_delitem (token : string) : M unit :=
  fun self w =>
    match dict_get token (tokens self) with
    | Some _ =>
        (Ok tt,
         {| tokens := dict_del token (tokens self); cache := cache self;
            rate_limits := rate_limits self; data := data self |}, w)
    | None => (Raise (KeyError token), self, w)
    end.

Definition get_rate_limits : M RateLimits :=
  fun self w => (Ok (rate_limits self), self, w).

Definition set_rate_limits (rl : RateLimits) : M unit :=
  fun self w =>
    (Ok tt,
     {| tokens := tokens self; cache := cache self; rate_limits := rl;
        data := data self |}, w).

(** [self.cache[code] = response] *)
Definition cache_setitem (code : string) (response : Responses) : M unit :=
  fun self w =>
    (Ok tt,
     {| tokens := tokens self; cache := <[code := response]> (cache self);
        rate_limits := rate_limits self; data := data self |}, w).

(** [self.data.append(ms)] *)
Definition data_append (ms : Z) : M unit :=
  fun self w =>
    (Ok tt,
     {| tokens := tokens self; cache := cache self;
        rate_limits := rate_limits self; data := data self ++ [ms] |}, w).

(** [elapsed <= delay] *)
Definition compare_le (elapsed : Q) (delay : Value) : M bool :=
  match float_le elapsed delay with
  | Some b => ret b
  | None => raise TypeError
  end.

(** [await request.json()] *)
Definition request_json (request : Reply) : M Body :=
  match json request with
  | Some body => ret body
  | None => raise JSONDecodeError
  end.

(** [response_json['retry_after']] *)
Definition json_retry_after (response_json : Body) : M Value :=
  match response_json with
  | Object (Some delay) => ret delay
  | Object None => raise (KeyError "retry_after")
  | NotObject => raise TypeError
  end.

(** The [for token in list(self.tokens)] loop of [redeem_code] over what
    is left of the snapshot; [payment_required], [response] and [token]
    are the local variables as they stand when the iteration starts. *)
Fixpoint redeem_loop (code : string) (snapshot : list string)
    (payment_required : bool) (response : Responses)
    (token : option string) {struct snapshot}
    : M (option string * Responses) :=
  match snapshot with
  | [] => ret (token, response)
  | token :: rest =>
      payment_id <- tokens_getitem token ;;
      if payment_required && negb (truthy payment_id) then
        redeem_loop code rest payment_required response (Some token)
      else
        now <- time_time ;;
        rl <- get_rate_limits ;;
        blocked <- compare_le (now - rate_timestamp rl) (rate_delay rl) ;;
        if blocked : bool then
          ret (Some token, response)
        else
          start <- time_time ;;
          request <- session_post (mkRequest code token payment_id) ;;
          stop <- time_time ;;
          data_append (py_round ((stop - start) * 1000)) ;;;
          let response := ErrorHandler.handle_errors (text request) in
          cache_setitem code response ;;;
          if decide (response = ALREADY_CLAIMED) then
            ret (Some token, response)
          else if decide (response = CLAIMED) then
            print (text request) ;;;
            ret (Some token, response)
          else if decide (response = INVALID_GIFT) then
            ret (Some token, response)
          else if decide (response = NO_PAYMENT_SOURCE) then
            redeem_loop code rest true response (Some token)
          else if decide (response = ALREADY_PURCHASED) then
            redeem_loop code rest payment_required response (Some token)
          else
            (if decide (response = NOT_VERIFIED)
             then tokens_delitem token else ret tt) ;;;
            if decide (response = RATE_LIMITED) then
              response_json <- request_json request ;;
              timestamp <- time_time ;;
              delay <- json_retry_after response_json ;;
              set_rate_limits {| rate_timestamp := timestamp;
                                 rate_delay := delay |} ;;;
              ret (Some token, response)
            else
              redeem_loop code rest payment_required response (Some token)
  end.

Definition redeem_code (code : string) : M (option string * Responses) :=
  fun self w =>
    match cache self !! code with
    | Some _ => (Ok (None, IN_CACHE), self, w)
    | None =>
        (cache_setitem code RATE_LIMITED ;;;
         redeem_loop code (dict_keys (tokens self)) false RATE_LIMITED None)
          self w
    end.

(** A caller that redeems the codes of a list one after the other,
    whatever each call returns or raises. *)
Fixpoint redeem_all (codes : list string) (self : t) (w : World)
    : t * World :=
  match codes with
  | [] => (self, w)
  | code :: codes' =>
      let '(_, self', w') := redeem_code code self w in
      redeem_all codes' self' w'
  end.

End Redeem.

End NitroRedeemer.


(** ** Vocabulary of the statements about [redeem_code] *)

Module Trace.
Import NitroRedeemer.

(** The world after [n] more readings of the clock. *)
Definition tick (n : nat) (w : World) : World :=
  {| ticks := n + ticks w; sent := sent w; stdout := stdout w |}.

(** The world after one attempt: the reading for the backoff test, the
    reading [start], the request, the reading after it. *)
Definition attempted (req : Request) (w : World) : World :=
  {| ticks := 3 + ticks w; sent := sent w ++ [req]; stdout := stdout w |}.

(** The latency recorded by the attempt that starts in world [w]. *)
Definition latency (env : Env) (w : World) : Z :=
  py_round ((time_at env (2 + ticks w) - time_at env (1 + ticks w)) * 1000).

(** [self] after an attempt classified [r]: the latency is appended and
    the cache entry of the code overwritten. *)
Definition recorded (code : string) (r : Responses) (ms : Z) (self : t) : t :=
  {| tokens := tokens self; cache := <[code := r]> (cache self);
     rate_limits := rate_limits self; data := data self ++ [ms] |}.

Definition without_token (token : string) (self : t) : t :=
  {| tokens := dict_del token (tokens self); cache := cache self;
     rate_limits := rate_limits self; data := data self |}.

Definition with_rate_limits (rl : RateLimits) (self : t) : t :=
  {| tokens := tokens self; cache := cache self; rate_limits := rl;
     data := data self |}.

Definition printed (line : string) (w : World) : World :=
  {| ticks := ticks w; sent := sent w; stdout := stdout w ++ [line] |}.

(** The backoff test of [redeem_code] at the clock reading [now]; [None]
    when it raises. *)
Definition backoff_active (now : Q) (self : t) : option bool :=
  float_le (now - rate_timestamp (rate_limits self))
           (rate_delay (rate_limits self)).

(** The classification of the reply to request number [n]; [None] when the
    request raised. *)
Definition outcome_at (env : Env) (n : nat) (req : Request) : option Responses :=
  match post_at env n req with
  | Some reply => Some (ErrorHandler.handle_errors (text reply))
  | None => None
  end.

(** The classification of the last answered request among [reqs], posted
    as number [n] and following; [r] when there is none. *)
Fixpoint last_outcome (env : Env) (n : nat) (reqs : list Request)
    (r : Responses) : Responses :=
  match reqs with
  | [] => r
  | req :: reqs' =>
      last_outcome env (S n) reqs'
        (match outcome_at env n req with Some r' => r' | None => r end)
  end.

(** A server that answers every request, with a [retry_after] in the JSON
    body of every reply that is classified [RATE_LIMITED]. *)
Definition answers (env : Env) : Prop :=
  forall n req,
    exists reply,
      post_at env n req = Some reply
      /\ (ErrorHandler.handle_errors (text reply) = RATE_LIMITED ->
          exists delay, json reply = Some (Object (Some delay))).

(** The outcomes of a reply after which the loop ends at once. *)
Definition terminal (r : Responses) : Prop :=
  r = CLAIMED \/ r = ALREADY_CLAIMED \/ r = INVALID_GIFT \/ r = RATE_LIMITED.

Definition is_terminal (r : Responses) : bool :=
  match r with
  | CLAIMED | ALREADY_CLAIMED | INVALID_GIFT | RATE_LIMITED => true
  | _ => false
  end.

(** The delay is an [int], a [float] or a [bool]: the values with which the
    backoff test does not raise. *)
Definition is_number (delay : Value) : bool :=
  match delay with
  | VNumber _ | VBool _ | VNaN | VInfinity _ => true
  | VNone | VStr _ | VList | VDict => false
  end.

(** The tokens that a loop reached, read off the requests [reqs] that it
    sent (posted as number [n] and following), the keys [keys] it went
    through and the token dictionary [d] it started from.  A token is
    passed over when a payment source is required and it has none;
    otherwise it is tried with the next request, and it is the last token
    reached when that request raised or got a reply that ends the loop; a
    token that is not passed over and for which no request is left is the
    one at which the loop stopped without sending, blocked by the backoff.
    A payment source is required from the first reply [NO_PAYMENT_SOURCE]
    on. *)
Fixpoint reached (env : Env) (d : list (string * option string)) (n : nat)
    (keys : list string) (payment_required : bool) (reqs : list Request)
    : list string :=
  match keys with
  | [] => []
  | token :: keys' =>
      let has_payment :=
        match dict_get token d with
        | Some payment_id => truthy payment_id
        | None => false
        end in
      if payment_required && negb has_payment then
        token :: reached env d n keys' payment_required reqs
      else
        match reqs with
        | [] => [token]
        | req :: reqs' =>
            match outcome_at env n req with
            | None => [token]
            | Some r =>
                if is_terminal r then [token]
                else
                  token :: reached env d (S n) keys'
                             (match r with
                              | NO_PAYMENT_SOURCE => true
                              | _ => payment_required
                              end) reqs'
            end
        end
  end.

End Trace.

(** ** Concrete engines and environments used to run the model *)

Module Scenario.
Import NitroRedeemer.

Definition w0 : World := {| ticks := 0; sent := []; stdout := [] |}.

(** A clock that advances by one second at every reading, from 1000. *)
Definition clock (n : nat) : Q := inject_Z (1000 + Z.of_nat n).

(** A server that gives the same reply to every request. *)
Definition always (reply : Reply) : Env :=
  {| time_at := clock; post_at := fun _ _ => Some reply |}.

(** A server whose replies are listed per request number; a request
    beyond the list raises. *)
Definition scripted (replies : list Reply) : Env :=
  {| time_at := clock; post_at := fun n _ => nth_error replies n |}.

Definition rate_limited_5 : Reply :=
  {| text := "You are being rate limited."; json := Some (Object (Some (VNumber 5))) |}.

(** A reply whose body is not JSON. *)
Definition reply_of (body : string) : Reply :=
  {| text := body; json := None |}.

(** The rate-limit notice as plain text. *)
Definition rate_limited_text : Reply := reply_of "You are being rate limited.".

Definition no_payment_source : Reply :=
  reply_of (ErrorHandler.api_error "Payment source required to redeem gift."
              "50070").

Definition not_verified : Reply :=
  reply_of (ErrorHandler.api_error
              "You need to verify your account in order to perform this action."
              "40002").

Definition claimed : Reply := reply_of "{}".

(** An engine whose backoff started at second 100 for 5 seconds, and a
    clock that reads 105 seconds. *)
Definition backing_off : t :=
  {| tokens := [("t1", None)]; cache := ∅;
     rate_limits := {| rate_timestamp := 100; rate_delay := VNumber 5 |};
     data := [] |}.

Definition at_105 : Env :=
  {| time_at := fun _ => 105%Q; post_at := fun _ _ => Some claimed |}.

Definition one_token : t := init [("t1", None)].

Definition two_tokens : t := init [("t1", None); ("t2", None)].

Definition three_tokens : t :=
  init [("t1", None); ("t2", None); ("t3", Some "pay")].

(** An engine that has already claimed a code. *)
Definition has_claimed : t :=
  {| tokens := [("t1", None)];
     cache := {["AbCdEf1234567890" := CLAIMED]};
     rate_limits := {| rate_timestamp := 0; rate_delay := VNumber 0 |};
     data := [] |}.

Definition run (env : Env) (code : string) (self : t)
    : Result (option string * Responses) * t * World :=
  redeem_code env code self w0.

Definition result_of {A B C} (x : A * B * C) : A := fst (fst x).
Definition self_of {A B C} (x : A * B * C) : B := snd (fst x).
Definition world_of {A B C} (x : A * B * C) : C := snd x.

End Scenario.

(** ** Vocabulary of the statements about the pattern *)

Module ReSem.
Import Re.

(** The texts a pattern matches, read off its syntax. *)
Inductive matches : regex -> string -> Prop :=
  | matches_eps : matches Eps EmptyString
  | matches_chr c : matches (Chr c) (String c EmptyString)
  | matches_dot c : is_dot c = true -> matches Dot (String c EmptyString)
  | matches_word c : is_word c = true -> matches Word (String c EmptyString)
  | matches_cat r1 r2 s1 s2 :
      matches r1 s1 -> matches r2 s2 -> matches (Cat r1 r2) (s1 ++ s2)
  | matches_alt_l r1 r2 s : matches r1 s -> matches (Alt r1 r2) s
  | matches_alt_r r1 r2 s : matches r2 s -> matches (Alt r1 r2) s
  | matches_rep_stop r hi : matches (Rep r 0 hi) EmptyString
  | matches_rep_more r lo hi s1 s2 :
      matches r s1 -> matches (Rep r (Nat.pred lo) hi) s2 ->
      matches (Rep r lo (S hi)) (s1 ++ s2).

(** [p] is [link] up to its dots, each of which stands for any character
    but the line feed. *)
Fixpoint wild_eq (link p : string) : bool :=
  match link, p with
  | EmptyString, EmptyString => true
  | String c link', String a p' =>
      (if Ascii.eqb c "."%char then is_dot a else Ascii.eqb a c)
      && wild_eq link' p'
  | _, _ => false
  end.

(** The text starts with a word character. *)
Definition starts_word (s : string) : bool :=
  match s with
  | String c _ => is_word c
  | EmptyString => false
  end.

(** The character [c] occurs in [s]. *)
Fixpoint has_char (c : ascii) (s : string) : bool :=
  match s with
  | EmptyString => false
  | String a s' => Ascii.eqb a c || has_char c s'
  end.

End ReSem.

(** ** Vocabulary of the statements about the effects of a call *)

Module Effects.
Import NitroRedeemer Trace.

(** The number of requests among [reqs], posted as number [n] and
    following, that got a reply. *)
Fixpoint answered (env : Env) (n : nat) (reqs : list Request) : nat :=
  match reqs with
  | [] => 0
  | req :: reqs' =>
      (match post_at env n req with Some _ => 1 | None => 0 end
       + answered env (S n) reqs')%nat
  end.

(** The tokens of the requests among [reqs] whose reply is classified
    [NOT_VERIFIED], in the order of the requests. *)
Fixpoint dropped (env : Env) (n : nat) (reqs : list Request) : list string :=
  match reqs with
  | [] => []
  | req :: reqs' =>
      match outcome_at env n req with
      | Some NOT_VERIFIED => authorization req :: dropped env (S n) reqs'
      | _ => dropped env (S n) reqs'
      end
  end.

(** The dictionary [d] after [del d[k]] for each [k] of [ks] in turn. *)
Definition dict_del_all {V} (ks : list string) (d : list (string * V))
    : list (string * V) :=
  fold_left (fun d k => dict_del k d) ks d.

(** The request that [redeem_code] sends for [code] with an entry of the
    token dictionary. *)
Definition request_for (code : string) (entry : string * option string)
    : Request :=
  mkRequest code (fst entry) (snd entry).

End Effects.

(** ** More concrete runs *)

Module Cases.
Import NitroRedeemer Scenario.

Definition access_denied : Reply := reply_of "Access denied".

(** Every token is refused. *)
Definition denied_run : Result (option string * Responses) * t * World :=
  run (always access_denied) "code1" three_tokens.

(** Both tokens are unverified. *)
Definition unverified_run : Result (option string * Responses) * t * World :=
  run (always not_verified) "code1" two_tokens.

(** The code is claimed with the first token. *)
Definition claimed_run : Result (option string * Responses) * t * World :=
  run (always claimed) "code1" two_tokens.

(** The first token is refused, the request of the second raises. *)
Definition broken_run : Result (option string * Responses) * t * World :=
  run (scripted [access_denied]) "code1" two_tokens.

(** A rate-limited reply whose [retry_after] is [null]. *)
Definition rate_limited_null : Reply :=
  {| text := "You are being rate limited.";
     json := Some (Object (Some VNone)) |}.

Definition null_run : Result (option string * Responses) * t * World :=
  run (always rate_limited_null) "code1" two_tokens.

(** The call that follows [null_run], on another code. *)
Definition after_null_run : Result (option string * Responses) * t * World :=
  redeem_code (always rate_limited_null) "code2" (self_of null_run)
    (world_of null_run).

End Cases.

(** * Properties *)

(** ** The classifier *)

Section Classifier.
Import ErrorHandler.

Lemma prefix_app (e rest : string) : String.prefix e (e ++ rest) = true.
Proof.
  induction e as [|c e IH]; simpl; [destruct rest; reflexivity|].
  destruct (Ascii.ascii_dec c c) as [_|ne]; [exact IH | congruence].
Qed.

Lemma prefix_inv (e s : string) :
  String.prefix e s = true -> exists rest, s = e ++ rest.
Proof.
  revert s; induction e as [|c e IH]; intros s H.
  - exists s; reflexivity.
  - destruct s as [|a s]; simpl in H; [discriminate|].
    destruct (Ascii.ascii_dec c a) as [->|_]; [|discriminate].
    destruct (IH _ H) as [rest ->]. exists rest; reflexivity.
Qed.

Lemma str_in_cons (e : string) (a : ascii) (s : string) :
  str_in e (String a s)
  = if String.prefix e (String a s) then true else str_in e s.
Proof. reflexivity. Qed.

(** [str_in] decides [occurs_in]. *)
Lemma str_in_spec (e s : string) : str_in e s = true <-> occurs_in e s.
Proof.
  split.
  - induction s as [|a s IH].
    + destruct e as [|c e]; [|discriminate].
      intros _. exists "", "". reflexivity.
    + rewrite str_in_cons.
      destruct (String.prefix e (String a s)) eqn:P.
      * intros _. destruct (prefix_inv _ _ P) as [rest E].
        exists "", rest. exact E.
      * intros H. destruct (IH H) as (b & r & ->).
        exists (String a b), r. reflexivity.
  - intros (b & r & ->). induction b as [|a b IH].
    + change ("" ++ e ++ r) with (e ++ r).
      destruct (e ++ r) as [|a s] eqn:E.
      * destruct e; [reflexivity | discriminate].
      * rewrite str_in_cons, <- E, prefix_app. reflexivity.
    + change (String a b ++ e ++ r) with (String a (b ++ e ++ r)).
      rewrite str_in_cons.
      destruct (String.prefix e (String a (b ++ e ++ r))); [reflexivity|].
      exact IH.
Qed.

Lemma str_in_false (e s : string) : str_in e s = false <-> ~ occurs_in e s.
Proof.
  rewrite <- str_in_spec. destruct (str_in e s); split; intros; congruence.
Qed.

(** The loop returns the outcome of the first entry of the table whose
    text occurs in the body. *)
Lemma handle_errors_in_first (before : list (string * Responses))
    (error : string) (r : Responses) (after : list (string * Responses))
    (body : string) :
  Forall (fun entry => ~ occurs_in (fst entry) body) before ->
  occurs_in error body ->
  handle_errors_in (before ++ (error, r) :: after) body = r.
Proof.
  intros Hb He. induction Hb as [|[e0 r0] before Hn _ IH]; simpl.
  - apply str_in_spec in He. rewrite He. reflexivity.
  - apply str_in_false in Hn. simpl in Hn. rewrite Hn. exact IH.
Qed.

Lemma handle_errors_in_none (tbl : list (string * Responses)) (body : string) :
  Forall (fun entry => ~ occurs_in (fst entry) body) tbl ->
  handle_errors_in tbl body = CLAIMED.
Proof.
  induction 1 as [|[e0 r0] tbl Hn _ IH]; simpl; [reflexivity|].
  apply str_in_false in Hn. simpl in Hn. rewrite Hn. exact IH.
Qed.

(** C3. For every response body, [handle_errors] returns the outcome of
    the earliest entry of the signature table whose text occurs in the
    body; the table lists, in this order, the signatures of InvalidGift,
    AlreadyClaimed, NoPaymentSource, AlreadyPurchased, NotVerified,
    RateLimited and AccessDenied; when no entry occurs in the body the
    result is Claimed; and a body that contains the Unknown Gift Code
    fragment is InvalidGift whatever surrounds it. *)
Theorem handle_errors_earliest_entry (body : string) :
  (forall (before : list (string * Responses)) error r after,
      error_responses = (before ++ (error, r) :: after)%list ->
      Forall (fun entry => ~ occurs_in (fst entry) body) before ->
      occurs_in error body ->
      handle_errors body = r)
  /\ List.map snd error_responses =
       [INVALID_GIFT; ALREADY_CLAIMED; NO_PAYMENT_SOURCE; ALREADY_PURCHASED;
        NOT_VERIFIED; RATE_LIMITED; ACCESS_DENIED]
  /\ (Forall (fun entry => ~ occurs_in (fst entry) body) error_responses ->
      handle_errors body = CLAIMED)
  /\ (forall before after,
        body = before ++ api_error "Unknown Gift Code" "10038" ++ after ->
        handle_errors body = INVALID_GIFT).
Proof.
  repeat split.
  - intros before error r after E Hb He. unfold handle_errors. rewrite E.
    apply handle_errors_in_first; assumption.
  - apply handle_errors_in_none.
  - intros before after E.
    apply (handle_errors_in_first [] _ INVALID_GIFT (tail error_responses)).
    + constructor.
    + exists before, after. exact E.
Qed.

(** A rate-limit page that also says Access denied: the earlier entry of
    the table decides. *)
Lemma handle_errors_earliest_entry_witness :
  handle_errors "Access denied. You are being rate limited" = RATE_LIMITED.
Proof.
  refine (proj1 (handle_errors_earliest_entry _)
            (firstn 5 error_responses) _ _ (skipn 6 error_responses) _ _ _).
  - reflexivity.
  - repeat constructor; apply str_in_false; vm_compute; reflexivity.
  - apply str_in_spec; vm_compute; reflexivity.
Defined.

End Classifier.


(** ** The code extractor *)

Section Extractor.
Import Re NitroRedeemer.

Lemma str_app_cons (c : ascii) (a b : string) :
  String c a ++ b = String c (a ++ b).
Proof. reflexivity. Qed.

Lemma str_app_nil_l (b : string) : "" ++ b = b.
Proof. reflexivity. Qed.

Lemma str_length_app (a b : string) :
  String.length (a ++ b) = (String.length a + String.length b)%nat.
Proof.
  induction a as [|c a IH]; [reflexivity|].
  rewrite str_app_cons. simpl. now rewrite IH.
Qed.

Lemma str_app_inv_tail (a b s : string) : a ++ s = b ++ s -> a = b.
Proof.
  revert b. induction a as [|x a IH]; intros [|y b] H.
  - reflexivity.
  - apply (f_equal String.length) in H.
    rewrite str_app_nil_l, str_app_cons in H. cbn in H.
    rewrite str_length_app in H. lia.
  - apply (f_equal String.length) in H.
    rewrite str_app_nil_l, str_app_cons in H. cbn in H.
    rewrite str_length_app in H. lia.
  - rewrite !str_app_cons in H. injection H as -> H. f_equal. exact (IH _ H).
Qed.

(** The URL of a request determines the gift code. *)
Lemma url_inj (r1 r2 : Request) : url r1 = url r2 -> gift_code r1 = gift_code r2.
Proof.
  unfold url. intros H. apply String.app_inj in H.
  exact (str_app_inv_tail _ _ _ H).
Qed.

Lemma str_app_assoc (a b c : string) : (a ++ b) ++ c = a ++ b ++ c.
Proof.
  induction a as [|x a IH]; [reflexivity|].
  rewrite !str_app_cons. now rewrite IH.
Qed.

Lemma substring_0_app (a b : string) :
  String.substring 0 (String.length a) (a ++ b) = a.
Proof.
  induction a as [|c a IH]; [now destruct b|].
  rewrite str_app_cons. simpl. now rewrite IH.
Qed.

(** *** The matcher, one equation per construct *)

Lemma exec_cat r1 r2 s k :
  exec (Cat r1 r2) s k = exec r1 s (fun s' => exec r2 s' k).
Proof. reflexivity. Qed.

Lemma exec_alt r1 r2 s k :
  exec (Alt r1 r2) s k
  = match exec r1 s k with Some rest => Some rest | None => exec r2 s k end.
Proof. reflexivity. Qed.

Lemma exec_rep_0 r lo s k :
  exec (Rep r lo 0) s k = if (lo =? 0)%nat then k s else None.
Proof. reflexivity. Qed.

Lemma exec_rep_S r lo hi s k :
  exec (Rep r lo (S hi)) s k
  = match exec r s (fun s' => exec (Rep r (Nat.pred lo) hi) s' k) with
    | Some rest => Some rest
    | None => if (lo =? 0)%nat then k s else None
    end.
Proof. reflexivity. Qed.

Lemma exec_word_cons c s k :
  exec Word (String c s) k = if is_word c then k s else None.
Proof. reflexivity. Qed.

(** Greedy repetition: on a run of [hi] word characters [\w{lo,hi}] takes
    them all, whatever follows, and stops there. *)
Lemma exec_rep_word_full (hi : nat) :
  forall lo u s k,
    String.length u = hi -> all_word u = true -> (lo <= hi)%nat ->
    is_Some (k s) ->
    exec (Rep Word lo hi) (u ++ s) k = k s.
Proof.
  induction hi as [|hi IH]; intros lo u s k Hlen Hw Hlo Hk.
  - destruct u; [|discriminate]. rewrite exec_rep_0.
    replace lo with 0%nat by lia. reflexivity.
  - destruct u as [|c u]; [discriminate|].
    simpl in Hw. apply andb_prop in Hw as [Hc Hu].
    change (String c u ++ s) with (String c (u ++ s)).
    rewrite exec_rep_S, exec_word_cons, Hc.
    rewrite (IH (Nat.pred lo) u s k); [|simpl in Hlen; lia|exact Hu|lia|exact Hk].
    destruct Hk as [x Hx]. rewrite Hx. reflexivity.
Qed.

Lemma exec_chr_cons c a s k :
  exec (Chr c) (String a s) k = if Ascii.eqb a c then k s else None.
Proof. reflexivity. Qed.

(** A link without line feed matches itself. *)
Lemma exec_of_link_self (link s : string) k :
  str_in (String (ascii_of_nat 10) "") link = false ->
  exec (of_link link) (link ++ s) k = k s.
Proof.
  induction link as [|c link IH]; intros Hnl; [reflexivity|].
  rewrite str_in_cons in Hnl.
  destruct (String.prefix _ (String c link)) eqn:P; [discriminate|].
  rewrite str_app_cons. cbn [of_link]. rewrite exec_cat.
  destruct (Ascii.eqb c ".") eqn:Edot.
  - apply Ascii.eqb_eq in Edot as ->. cbn [exec is_dot]. exact (IH Hnl).
  - rewrite exec_chr_cons, Ascii.eqb_refl. exact (IH Hnl).
Qed.

(** The match of [gift_re] at a link followed by a slash, 24 word
    characters and anything else: the 24 characters are taken, the rest
    is left. *)
Lemma gift_re_exec_24 (link code rest : string) :
  In link links -> String.length code = 24%nat -> all_word code = true ->
  exec gift_re (link ++ "/" ++ code ++ rest) Some = Some rest.
Proof.
  intros Hin Hlen Hw.
  assert (Htail : exec (Cat (Chr "/") (Rep Word 16 24))
                    ("/" ++ code ++ rest) Some = Some rest).
  { rewrite exec_cat. change ("/" ++ code ++ rest) with (String "/" (code ++ rest)).
    rewrite exec_chr_cons, Ascii.eqb_refl.
    apply exec_rep_word_full; [exact Hlen|exact Hw|lia|eexists; reflexivity]. }
  unfold gift_re. rewrite exec_cat.
  change (alternatives links)
    with (Alt (of_link "discord.gift")
            (Alt (of_link "discordapp.com/gifts") (of_link "discord.com/gifts"))).
  destruct Hin as [<-|[<-|[<-|[]]]].
  - rewrite exec_alt, exec_of_link_self by reflexivity. rewrite Htail. reflexivity.
  - rewrite exec_alt.
    replace (exec (of_link "discord.gift") _ _) with (@None string) by reflexivity.
    rewrite exec_alt, exec_of_link_self by reflexivity. rewrite Htail. reflexivity.
  - rewrite exec_alt.
    replace (exec (of_link "discord.gift") _ _) with (@None string) by reflexivity.
    rewrite exec_alt.
    replace (exec (of_link "discordapp.com/gifts") _ _) with (@None string)
      by reflexivity.
    rewrite exec_of_link_self by reflexivity. exact Htail.
Qed.

(** *** Scanning *)

Lemma finditer_from_skip (r : regex) (m text : string) :
  finditer_from r (String.length m) (m ++ text) = finditer_from r 0 text.
Proof. induction m as [|c m IH]; [reflexivity | exact IH]. Qed.

(** A non-empty match at the scanning position is reported, and the scan
    resumes behind it. *)
Lemma finditer_from_match (r : regex) (m text : string) :
  m <> "" ->
  match_len r (m ++ text) = Some (String.length m) ->
  finditer_from r 0 (m ++ text) = m :: finditer_from r 0 text.
Proof.
  intros Hne Hm. destruct m as [|c m]; [congruence|].
  rewrite str_app_cons in *. cbn [finditer_from]. rewrite Hm.
  rewrite <- str_app_cons, substring_0_app. f_equal.
  exact (finditer_from_skip r m text).
Qed.

Lemma finditer_from_no_match (r : regex) (before text : string) :
  no_match_inside r before text = true ->
  finditer_from r 0 (before ++ text) = finditer_from r 0 text.
Proof.
  induction before as [|c before IH]; [reflexivity|].
  cbn [no_match_inside]. rewrite str_app_cons. cbn [finditer_from].
  destruct (match_len r (String c (before ++ text))); [discriminate|].
  exact IH.
Qed.

(** *** Stripping the links *)

Lemma prefix_all_word (old s : string) :
  String.prefix old s = true -> all_word s = true -> all_word old = true.
Proof.
  revert s; induction old as [|c old IH]; intros s Hp Hw; [reflexivity|].
  destruct s as [|a s]; [discriminate|]. simpl in Hp.
  destruct (Ascii.ascii_dec c a) as [->|_]; [|discriminate].
  simpl in Hw |- *. apply andb_prop in Hw as [Ha Hs].
  rewrite Ha. exact (IH _ Hp Hs).
Qed.

(** A text of word characters holds no occurrence of a string that has
    another character. *)
Lemma str_remove_all_word (old s : string) :
  all_word old = false -> all_word s = true -> str_remove old s = s.
Proof.
  intros Ho. unfold str_remove. induction s as [|a s IH]; intros Hw;
    [reflexivity|].
  cbn [str_remove_from].
  destruct (String.prefix old (String a s)) eqn:P.
  - rewrite (prefix_all_word _ _ P Hw) in Ho. discriminate.
  - simpl in Hw. apply andb_prop in Hw as [_ Hs]. rewrite (IH Hs). reflexivity.
Qed.

Lemma str_remove_from_skip (old m text : string) :
  str_remove_from old (String.length m) (m ++ text) = str_remove_from old 0 text.
Proof. induction m as [|c m IH]; [reflexivity | exact IH]. Qed.

Lemma str_remove_prefix (old s : string) :
  old <> "" -> str_remove old (old ++ s) = str_remove old s.
Proof.
  intros Hne. unfold str_remove. destruct old as [|c old]; [congruence|].
  rewrite str_app_cons. cbn [str_remove_from].
  replace (String.prefix (String c old) (String c (old ++ s))) with true
    by (symmetry; exact (prefix_app (String c old) s)).
  exact (str_remove_from_skip (String c old) old s).
Qed.

Lemma remove_links_code (link code : string) :
  In link links -> all_word code = true ->
  remove_links (link ++ "/" ++ code) = code.
Proof.
  intros Hin Hw. unfold remove_links, links. cbn [fold_left].
  assert (H1 : str_remove ("discord.gift" ++ "/") code = code)
    by (apply str_remove_all_word; [reflexivity | exact Hw]).
  assert (H2 : str_remove ("discordapp.com/gifts" ++ "/") code = code)
    by (apply str_remove_all_word; [reflexivity | exact Hw]).
  assert (H3 : str_remove ("discord.com/gifts" ++ "/") code = code)
    by (apply str_remove_all_word; [reflexivity | exact Hw]).
  destruct Hin as [<-|[<-|[<-|[]]]].
  - rewrite <- (str_app_assoc "discord.gift" "/" code).
    rewrite str_remove_prefix by discriminate. rewrite H1, H2, H3. reflexivity.
  - replace (str_remove ("discord.gift" ++ "/") ("discordapp.com/gifts" ++ "/" ++ code))
      with ("discordapp.com/gifts" ++ "/" ++ str_remove ("discord.gift" ++ "/") code)
      by reflexivity.
    rewrite H1, <- (str_app_assoc "discordapp.com/gifts" "/" code).
    rewrite str_remove_prefix by discriminate. rewrite H2, H3. reflexivity.
  - replace (str_remove ("discord.gift" ++ "/") ("discord.com/gifts" ++ "/" ++ code))
      with ("discord.com/gifts" ++ "/" ++ str_remove ("discord.gift" ++ "/") code)
      by reflexivity.
    rewrite H1.
    replace (str_remove ("discordapp.com/gifts" ++ "/") ("discord.com/gifts" ++ "/" ++ code))
      with ("discord.com/gifts" ++ "/" ++ str_remove ("discordapp.com/gifts" ++ "/") code)
      by reflexivity.
    rewrite H2, <- (str_app_assoc "discord.com/gifts" "/" code).
    rewrite str_remove_prefix by discriminate. exact H3.
Qed.

(** C10. When one of the three links is followed by a slash and a run of
    at least 25 word characters (24 characters [code], one more word
    character [c], then anything), and the scan reaches the link (no match
    begins in the text before it), [find_codes] reports [code], the first
    24 characters of the run, although the path segment goes on with [c];
    the scan resumes at [c]. *)
Theorem find_codes_truncates_long_run
    (before link code : string) (c : ascii) (rest : string) :
  In link links ->
  String.length code = 24%nat ->
  all_word code = true ->
  is_word c = true ->
  no_match_inside gift_re before (link ++ "/" ++ code ++ String c rest) = true ->
  find_codes (before ++ link ++ "/" ++ code ++ String c rest)
  = code :: find_codes (String c rest).
Proof.
  intros Hin Hlen Hw Hc Hbefore. unfold find_codes, finditer.
  rewrite (finditer_from_no_match _ _ _ Hbefore).
  assert (E : link ++ "/" ++ code ++ String c rest
              = (link ++ "/" ++ code) ++ String c rest)
    by (now rewrite !str_app_assoc).
  rewrite E, finditer_from_match.
  - cbn [List.map]. rewrite (remove_links_code _ _ Hin Hw). reflexivity.
  - destruct Hin as [<-|[<-|[<-|[]]]]; discriminate.
  - unfold match_len. rewrite <- E, (gift_re_exec_24 _ _ _ Hin Hlen Hw).
    f_equal. rewrite E, str_length_app. lia.
Qed.

(** A link with a path segment of 30 characters in the middle of a
    sentence: the code reported is its first 24 characters. *)
Lemma find_codes_truncates_long_run_witness :
  find_codes "see discord.gift/ABCDEFGHIJKLMNOPQRSTUVWXyz0123 now"
  = "ABCDEFGHIJKLMNOPQRSTUVWX" :: find_codes "yz0123 now".
Proof.
  apply (find_codes_truncates_long_run "see " "discord.gift"
           "ABCDEFGHIJKLMNOPQRSTUVWX" "y" "z0123 now").
  - left; reflexivity.
  - reflexivity.
  - reflexivity.
  - reflexivity.
  - vm_compute; reflexivity.
Defined.

(** *** The examples of the specification *)

Lemma find_codes_16 :
  find_codes "check discord.gift/AbCdEf1234567890 out" = ["AbCdEf1234567890"].
Proof. vm_compute; reflexivity. Qed.

Lemma find_codes_15 :
  find_codes "check discord.gift/AbCdEf123456789 out" = [].
Proof. vm_compute; reflexivity. Qed.

Lemma find_codes_twice :
  find_codes "discord.gift/AbCdEf1234567890 discord.gift/AbCdEf1234567890"
  = ["AbCdEf1234567890"; "AbCdEf1234567890"].
Proof. vm_compute; reflexivity. Qed.

(** C4. The dot of the links is read by [re.compile] as a wildcard, while
    [remove_links] looks for the links letter for letter: a text in which
    another character stands for the dot is matched, and the match is
    returned with its prefix and slash. *)
Theorem find_codes_dot_is_wildcard :
  find_codes "discordXgift/AbCdEf1234567890" = ["discordXgift/AbCdEf1234567890"].
Proof. vm_compute; reflexivity. Qed.

End Extractor.


(** ** The enumeration and the classifier: what they never give *)

Section ClassifierRange.
Import ErrorHandler.

(** X7. The members of [Responses] have the values 0 to 8, each its own:
    no member is an alias of another. *)
Theorem Responses_value_distinct (r1 r2 : Responses) :
  (0 <= Responses_value r1 <= 8)%Z
  /\ (Responses_value r1 = Responses_value r2 -> r1 = r2).
Proof. split; [destruct r1; cbn; lia | destruct r1, r2; cbn; congruence]. Qed.

(** What the loop over a table returns: the outcome of the first entry
    that occurs in the body, or [CLAIMED] past the end. *)
Lemma handle_errors_in_inv (tbl : list (string * Responses)) (body : string)
    (r : Responses) :
  handle_errors_in tbl body = r ->
  (r = CLAIMED /\ Forall (fun entry => ~ occurs_in (fst entry) body) tbl)
  \/ exists before error after,
      tbl = (before ++ (error, r) :: after)%list
      /\ Forall (fun entry => ~ occurs_in (fst entry) body) before
      /\ occurs_in error body.
Proof.
  revert r. induction tbl as [|[e0 r0] tbl IH]; intros r H.
  - left. split; [now symmetry | constructor].
  - cbn [handle_errors_in] in H. destruct (str_in e0 body) eqn:E.
    + right. exists [], e0, tbl. subst r0.
      repeat split; [constructor | now apply str_in_spec].
    + apply str_in_false in E. destruct (IH _ H) as [[-> Hall]|Hex].
      * left. split; [reflexivity | now constructor].
      * right. destruct Hex as (before & error & after & -> & Hb & He).
        exists ((e0, r0) :: before), error, after.
        repeat split; [now constructor | exact He].
Qed.

(** X8. Whatever [handle_errors] returns is warranted by the body: an
    outcome other than [CLAIMED] is that of a signature that occurs in the
    body with no earlier signature of the table occurring, and [CLAIMED] is
    returned exactly when no signature of the table occurs in the body. *)
Theorem handle_errors_is_warranted (body : string) :
  (forall r, handle_errors body = r -> r <> CLAIMED ->
     exists before error after,
       error_responses = (before ++ (error, r) :: after)%list
       /\ Forall (fun entry => ~ occurs_in (fst entry) body) before
       /\ occurs_in error body)
  /\ (handle_errors body = CLAIMED
      <-> Forall (fun entry => ~ occurs_in (fst entry) body) error_responses).
Proof.
  split.
  - intros r H Hr. apply handle_errors_in_inv in H as [[-> _]|H];
      [contradiction | exact H].
  - split; [|apply handle_errors_in_none].
    intros H. apply handle_errors_in_inv in H as [[_ H]|H]; [exact H|].
    exfalso. destruct H as (before & error & after & E & _).
    assert (Hin : In CLAIMED (List.map snd error_responses)).
    { rewrite E, map_app. apply in_or_app. right. now left. }
    cbn in Hin. intuition discriminate.
Qed.

Lemma handle_errors_range (body : string) :
  In (handle_errors body)
     [INVALID_GIFT; ALREADY_CLAIMED; NO_PAYMENT_SOURCE; ALREADY_PURCHASED;
      NOT_VERIFIED; RATE_LIMITED; ACCESS_DENIED; CLAIMED].
Proof.
  destruct (handle_errors_in_inv error_responses body _ eq_refl)
    as [[E _]|(before & error & after & E & _)].
  - unfold handle_errors. rewrite E. cbn. tauto.
  - assert (Hin : In (handle_errors body) (List.map snd error_responses)).
    { rewrite E, map_app. apply in_or_app. right. now left. }
    cbn in Hin |- *. tauto.
Qed.

(** X9. [handle_errors] returns one of the seven outcomes of the table or
    [CLAIMED], never [IN_CACHE]: that outcome only comes from the cache test
    of [redeem_code]. *)
Theorem handle_errors_outcomes (body : string) :
  In (handle_errors body)
     [INVALID_GIFT; ALREADY_CLAIMED; NO_PAYMENT_SOURCE; ALREADY_PURCHASED;
      NOT_VERIFIED; RATE_LIMITED; ACCESS_DENIED; CLAIMED].
Proof. exact (handle_errors_range body). Qed.
End ClassifierRange.

(** ** The code extractor: what a match is, and the edges *)

Section ExtractorShape.
Import Re ReSem NitroRedeemer.

(** The matcher only accepts texts of the pattern: a successful run splits
    its input into a match of [r] and the rest handed to the continuation. *)
Lemma exec_sound (r : regex) :
  forall s k x,
    exec r s k = Some x ->
    exists m s', s = m ++ s' /\ matches r m /\ k s' = Some x.
Proof.
  induction r as [| c | | | r1 IH1 r2 IH2 | r1 IH1 r2 IH2 | r IH lo hi];
    intros s k x H.
  - exists "", s. repeat split; [constructor | exact H].
  - destruct s as [|a s]; [discriminate|]. rewrite exec_chr_cons in H.
    destruct (Ascii.eqb_spec a c) as [->|]; [|discriminate].
    exists (String c ""), s. repeat split; [constructor | exact H].
  - destruct s as [|a s]; [discriminate|]. cbn [exec] in H.
    destruct (is_dot a) eqn:Ha; [|discriminate].
    exists (String a ""), s. repeat split; [now constructor | exact H].
  - destruct s as [|a s]; [discriminate|]. rewrite exec_word_cons in H.
    destruct (is_word a) eqn:Ha; [|discriminate].
    exists (String a ""), s. repeat split; [now constructor | exact H].
  - rewrite exec_cat in H.
    apply IH1 in H as (m1 & s1 & -> & Hm1 & H).
    apply IH2 in H as (m2 & s2 & -> & Hm2 & H).
    exists (m1 ++ m2), s2. rewrite str_app_assoc.
    repeat split; [now constructor | exact H].
  - rewrite exec_alt in H. destruct (exec r1 s k) as [y|] eqn:E.
    + injection H as ->. apply IH1 in E as (m & s' & -> & Hm & E).
      exists m, s'. repeat split; [now apply matches_alt_l | exact E].
    + apply IH2 in H as (m & s' & -> & Hm & H).
      exists m, s'. repeat split; [now apply matches_alt_r | exact H].
  - revert lo s k x H. induction hi as [|hi IHhi]; intros lo s k x H.
    + rewrite exec_rep_0 in H. destruct (Nat.eqb_spec lo 0) as [->|];
        [|discriminate].
      exists "", s. repeat split; [constructor | exact H].
    + rewrite exec_rep_S in H.
      destruct (exec r s _) as [y|] eqn:E.
      * injection H as ->. apply IH in E as (m1 & s1 & -> & Hm1 & E).
        apply IHhi in E as (m2 & s2 & -> & Hm2 & E).
        exists (m1 ++ m2), s2. rewrite str_app_assoc.
        repeat split; [now constructor | exact E].
      * destruct (Nat.eqb_spec lo 0) as [->|]; [|discriminate].
        exists "", s. repeat split; [constructor | exact H].
Qed.

Lemma match_len_sound (r : regex) (s : string) (n : nat) :
  match_len r s = Some n ->
  exists m rest, s = m ++ rest /\ matches r m /\ n = String.length m.
Proof.
  unfold match_len. destruct (exec r s Some) as [rest|] eqn:Ex; [|discriminate].
  apply exec_sound in Ex as (m & s' & -> & Hm & [= ->]). intros [= <-].
  exists m, rest. repeat split; [exact Hm|]. rewrite str_length_app. lia.
Qed.

(** Every item of [finditer] is a match of the pattern that occurs in the
    text. *)
Lemma finditer_from_sound (r : regex) (text : string) :
  forall skip m,
    In m (finditer_from r skip text) ->
    matches r m /\ occurs_in m text.
Proof.
  induction text as [|c text IH]; intros skip m Hin.
  - cbn [finditer_from] in Hin. destruct skip; [|contradiction].
    destruct (match_len r "") as [n|] eqn:E; [|contradiction].
    destruct Hin as [<-|[]].
    apply match_len_sound in E as (m & rest & Hs & Hm & _).
    destruct m; [|discriminate]. split; [exact Hm|]. exists "", "". reflexivity.
  - cbn [finditer_from] in Hin.
    assert (Htail : forall skip', In m (finditer_from r skip' text) ->
              matches r m /\ occurs_in m (String c text)).
    { intros skip' Hin'. destruct (IH _ _ Hin') as (Hm & b & a & ->).
      split; [exact Hm|]. exists (String c b), a. reflexivity. }
    destruct skip as [|skip]; [|now apply (Htail skip)].
    destruct (match_len r (String c text)) as [n|] eqn:E;
      [|now apply (Htail 0%nat)].
    destruct Hin as [<-|Hin]; [|now apply (Htail (Nat.pred n))].
    apply match_len_sound in E as (m & rest & Hs & Hm & ->).
    rewrite Hs, substring_0_app.
    split; [exact Hm|]. exists "", rest. reflexivity.
Qed.

(** *** The shape of a match of [gift_re] *)

Lemma wild_eq_length (link p : string) :
  wild_eq link p = true -> String.length p = String.length link.
Proof.
  revert p. induction link as [|c link IH]; intros [|a p] H;
    try discriminate; [reflexivity|].
  cbn [wild_eq] in H. apply andb_prop in H as [_ H]. cbn. f_equal. auto.
Qed.

Lemma matches_of_link (link p : string) :
  matches (of_link link) p -> wild_eq link p = true.
Proof.
  revert p. induction link as [|c link IH]; intros p H.
  - inversion H. reflexivity.
  - cbn [of_link] in H. inversion H as [| | | | r1 r2 s1 s2 H1 H2 | | | |]; subst.
    apply IH in H2. destruct (Ascii.eqb c ".") eqn:Ec.
    + inversion H1; subst. rewrite str_app_cons, str_app_nil_l.
      cbn [wild_eq]. rewrite Ec, H2. now rewrite andb_true_r.
    + inversion H1; subst. rewrite str_app_cons, str_app_nil_l.
      cbn [wild_eq]. rewrite Ec, H2, Ascii.eqb_refl. reflexivity.
Qed.

Lemma matches_rep_word (hi : nat) :
  forall lo w,
    matches (Rep Word lo hi) w ->
    all_word w = true /\ (lo <= String.length w <= hi)%nat.
Proof.
  induction hi as [|hi IH]; intros lo w H.
  - inversion H; subst. cbn. split; [reflexivity | lia].
  - inversion H as [| | | | | | | r0 hi0 | r0 lo0 hi0 s1 s2 H1 H2]; subst.
    + cbn. split; [reflexivity | lia].
    + inversion H1; subst. apply IH in H2 as [Hw Hl].
      rewrite str_app_cons, str_app_nil_l. cbn. rewrite Hw, andb_true_r.
      split; [assumption | lia].
Qed.

(** A match of [gift_re] is a link up to its dots, a slash and 16 to 24
    word characters. *)
Lemma matches_gift_re (m : string) :
  matches gift_re m ->
  exists link p w,
    In link links /\ wild_eq link p = true /\ m = p ++ "/" ++ w
    /\ all_word w = true /\ (16 <= String.length w <= 24)%nat.
Proof.
  unfold gift_re. intros H.
  inversion H as [| | | | r1 r2 p tl Hp Htl | | | |]; subst.
  inversion Htl as [| | | | r1 r2 sl w Hsl Hw | | | |]; subst.
  inversion Hsl; subst. apply matches_rep_word in Hw as [Hw Hl].
  change (alternatives links)
    with (Alt (of_link "discord.gift")
            (Alt (of_link "discordapp.com/gifts") (of_link "discord.com/gifts")))
    in Hp.
  assert (Hlink : exists link, In link links /\ wild_eq link p = true).
  { inversion Hp as [| | | | | r1 r2 s H1 | r1 r2 s H23 | |]; subst.
    - exists "discord.gift". split; [now left | now apply matches_of_link].
    - inversion H23 as [| | | | | r1 r2 s H2 | r1 r2 s H3 | |]; subst.
      + exists "discordapp.com/gifts".
        split; [right; now left | now apply matches_of_link].
      + exists "discord.com/gifts".
        split; [right; right; now left | now apply matches_of_link]. }
  destruct Hlink as (link & Hin & Hwild).
  exists link, p, w. repeat split; auto; lia.
Qed.

Lemma occurs_in_length (m text : string) :
  occurs_in m text -> (String.length m <= String.length text)%nat.
Proof. intros (b & a & ->). rewrite !str_length_app. lia. Qed.

Lemma links_length (link : string) :
  In link links -> (12 <= String.length link)%nat.
Proof. intros [<-|[<-|[<-|[]]]]; cbn; lia. Qed.

(** What [find_codes] reports, item by item. *)
Lemma find_codes_shape (text code : string) :
  In code (find_codes text) ->
  exists link p w,
    In link links /\ wild_eq link p = true
    /\ all_word w = true /\ (16 <= String.length w <= 24)%nat
    /\ occurs_in (p ++ "/" ++ w) text
    /\ code = remove_links (p ++ "/" ++ w).
Proof.
  unfold find_codes, finditer. intros Hin.
  apply in_map_iff in Hin as (m & <- & Hin).
  apply finditer_from_sound in Hin as [Hm Hocc].
  apply matches_gift_re in Hm as (link & p & w & Hl & Hp & -> & Hw & Hlen).
  exists link, p, w. auto 10.
Qed.

(** X1. Every item reported by [find_codes] comes from an occurrence in
    the text of a link (its dots standing for any character but the line
    feed), a slash and 16 to 24 word characters, and is what [remove_links]
    leaves of that occurrence; when the link is there letter for letter, the
    item is the run of word characters alone. *)
Theorem find_codes_items (text code : string) :
  In code (find_codes text) ->
  exists link p w,
    In link links /\ wild_eq link p = true
    /\ all_word w = true /\ (16 <= String.length w <= 24)%nat
    /\ occurs_in (p ++ "/" ++ w) text
    /\ code = remove_links (p ++ "/" ++ w)
    /\ (p = link -> code = w).
Proof.
  intros Hin.
  destruct (find_codes_shape _ _ Hin) as (link & p & w & Hl & Hp & Hw & Hn & Ho & ->).
  exists link, p, w. repeat split; auto; try lia.
  intros ->. now apply remove_links_code.
Qed.

(** X2. A text of fewer than 29 characters (12 for the shortest link, the
    slash, 16 for the code) holds no code; in particular the empty text. *)
Theorem find_codes_short_text (text : string) :
  (String.length text < 29)%nat -> find_codes text = [].
Proof.
  intros Hlen. destruct (find_codes text) as [|code l] eqn:E; [reflexivity|].
  exfalso.
  destruct (find_codes_shape text code) as (link & p & w & Hl & Hp & _ & Hn & Ho & _);
    [rewrite E; now left|].
  apply occurs_in_length in Ho. rewrite !str_length_app in Ho.
  apply wild_eq_length in Hp. apply links_length in Hl. cbn in Ho. lia.
Qed.

(** *** Runs of word characters *)

Lemma exec_rep_word_stuck (lo hi : nat) (s : string) k :
  starts_word s = false ->
  exec (Rep Word lo hi) s k = if (lo =? 0)%nat then k s else None.
Proof.
  intros Hs. destruct hi as [|hi]; [apply exec_rep_0|]. rewrite exec_rep_S.
  destruct s as [|c s]; [reflexivity|]. rewrite exec_word_cons.
  cbn in Hs. rewrite Hs. reflexivity.
Qed.

(** On a run that ends before [hi] characters, [\w{lo,hi}] takes the whole
    run when it has [lo] characters at least. *)
Lemma exec_rep_word_run (hi : nat) :
  forall lo u s k,
    (String.length u <= hi)%nat -> all_word u = true ->
    (lo <= String.length u)%nat -> starts_word s = false ->
    is_Some (k s) ->
    exec (Rep Word lo hi) (u ++ s) k = k s.
Proof.
  induction hi as [|hi IH]; intros lo u s k Hlen Hw Hlo Hs Hk.
  - destruct u; [|cbn in Hlen; lia]. cbn in Hlo.
    rewrite str_app_nil_l, exec_rep_0. now replace lo with 0%nat by lia.
  - destruct u as [|c u].
    + cbn in Hlo. rewrite str_app_nil_l, exec_rep_word_stuck by exact Hs.
      now replace lo with 0%nat by lia.
    + cbn in Hw, Hlen, Hlo. apply andb_prop in Hw as [Hc Hu].
      rewrite str_app_cons, exec_rep_S, exec_word_cons, Hc.
      rewrite (IH (Nat.pred lo) u s k) by (assumption || lia).
      destruct Hk as [x Hx]. rewrite Hx. reflexivity.
Qed.

(** and fails when the run is shorter than [lo]. *)
Lemma exec_rep_word_short (hi : nat) :
  forall lo u s k,
    all_word u = true -> (String.length u < lo)%nat -> starts_word s = false ->
    exec (Rep Word lo hi) (u ++ s) k = None.
Proof.
  induction hi as [|hi IH]; intros lo u s k Hw Hlo Hs.
  - rewrite exec_rep_0. destruct (Nat.eqb_spec lo 0); [lia | reflexivity].
  - destruct u as [|c u].
    + rewrite str_app_nil_l, exec_rep_word_stuck by exact Hs.
      destruct (Nat.eqb_spec lo 0); [cbn in Hlo; lia | reflexivity].
    + cbn in Hw, Hlo. apply andb_prop in Hw as [Hc Hu].
      rewrite str_app_cons, exec_rep_S, exec_word_cons, Hc.
      rewrite (IH (Nat.pred lo) u s _ Hu) by (assumption || lia).
      destruct (Nat.eqb_spec lo 0); [lia | reflexivity].
Qed.

(** At a link written letter for letter, [gift_re] matches exactly as the
    slash and the run of word characters do. *)
Lemma gift_re_exec_at_link (link tail : string) :
  In link links ->
  exec gift_re (link ++ tail) Some
  = exec (Cat (Chr "/") (Rep Word 16 24)) tail Some.
Proof.
  intros Hin. unfold gift_re. rewrite exec_cat.
  change (alternatives links)
    with (Alt (of_link "discord.gift")
            (Alt (of_link "discordapp.com/gifts") (of_link "discord.com/gifts"))).
  destruct Hin as [<-|[<-|[<-|[]]]].
  - rewrite exec_alt, exec_of_link_self by reflexivity.
    destruct (exec (Cat _ _) tail Some); reflexivity.
  - rewrite exec_alt.
    replace (exec (of_link "discord.gift") _ _) with (@None string) by reflexivity.
    rewrite exec_alt, exec_of_link_self by reflexivity.
    destruct (exec (Cat _ _) tail Some); reflexivity.
  - rewrite exec_alt.
    replace (exec (of_link "discord.gift") _ _) with (@None string) by reflexivity.
    rewrite exec_alt.
    replace (exec (of_link "discordapp.com/gifts") _ _) with (@None string)
      by reflexivity.
    rewrite exec_of_link_self by reflexivity. reflexivity.
Qed.

Lemma gift_re_exec_run (link w rest : string) :
  In link links ->
  all_word w = true ->
  (16 <= String.length w <= 24)%nat ->
  String.length w = 24%nat \/ starts_word rest = false ->
  exec gift_re (link ++ "/" ++ w ++ rest) Some = Some rest.
Proof.
  intros Hin Hw Hlen Hend.
  rewrite (gift_re_exec_at_link _ _ Hin), exec_cat.
  change ("/" ++ w ++ rest) with (String "/" (w ++ rest)).
  rewrite exec_chr_cons, Ascii.eqb_refl.
  destruct Hend as [H24|Hs].
  - apply exec_rep_word_full; [exact H24 | exact Hw | lia | eexists; reflexivity].
  - apply exec_rep_word_run; [lia | exact Hw | lia | exact Hs | eexists; reflexivity].
Qed.

(** X3. A link written letter for letter, a slash and a run of 16 to 24
    word characters that ends there (or is cut at 24): when the scan reaches
    the link, [find_codes] reports the run, bare, and resumes behind it. *)
Theorem find_codes_extracts_code (before link w rest : string) :
  In link links ->
  all_word w = true ->
  (16 <= String.length w <= 24)%nat ->
  String.length w = 24%nat \/ starts_word rest = false ->
  no_match_inside gift_re before (link ++ "/" ++ w ++ rest) = true ->
  find_codes (before ++ link ++ "/" ++ w ++ rest) = w :: find_codes rest.
Proof.
  intros Hin Hw Hlen Hend Hbefore. unfold find_codes, finditer.
  rewrite (finditer_from_no_match _ _ _ Hbefore).
  assert (E : link ++ "/" ++ w ++ rest = (link ++ "/" ++ w) ++ rest)
    by (now rewrite !str_app_assoc).
  rewrite E, finditer_from_match.
  - cbn [List.map]. rewrite (remove_links_code _ _ Hin Hw). reflexivity.
  - destruct Hin as [<-|[<-|[<-|[]]]]; discriminate.
  - unfold match_len.
    rewrite <- E, (gift_re_exec_run _ _ _ Hin Hw Hlen Hend).
    f_equal. rewrite E, str_length_app. lia.
Qed.

(** X4. At a link written letter for letter whose path segment has fewer
    than 16 word characters, the pattern does not match. *)
Theorem gift_re_rejects_short_code (link w rest : string) :
  In link links ->
  all_word w = true ->
  (String.length w < 16)%nat ->
  starts_word rest = false ->
  match_len gift_re (link ++ "/" ++ w ++ rest) = None.
Proof.
  intros Hin Hw Hlen Hs. unfold match_len.
  rewrite (gift_re_exec_at_link _ _ Hin), exec_cat.
  change ("/" ++ w ++ rest) with (String "/" (w ++ rest)).
  rewrite exec_chr_cons, Ascii.eqb_refl.
  now rewrite exec_rep_word_short.
Qed.

(** *** [remove_links] *)

Lemma prefix_has_char (c : ascii) (old s : string) :
  String.prefix old s = true -> has_char c old = true -> has_char c s = true.
Proof.
  revert s. induction old as [|a old IH]; intros s Hp Hc; [discriminate|].
  destruct s as [|b s]; [discriminate|]. simpl in Hp.
  destruct (Ascii.ascii_dec a b) as [->|_]; [|discriminate].
  cbn [has_char] in *. apply orb_prop in Hc as [Hc|Hc].
  - rewrite Hc. reflexivity.
  - rewrite (IH _ Hp Hc). apply orb_true_r.
Qed.

Lemma str_remove_absent_char (c : ascii) (old s : string) :
  has_char c old = true -> has_char c s = false -> str_remove old s = s.
Proof.
  intros Ho. unfold str_remove. induction s as [|a s IH]; intros Hs;
    [reflexivity|].
  cbn [str_remove_from].
  destruct (String.prefix old (String a s)) eqn:P.
  - rewrite (prefix_has_char _ _ _ P Ho) in Hs. discriminate.
  - cbn [has_char] in Hs. apply orb_false_elim in Hs as [_ Hs].
    rewrite (IH Hs). reflexivity.
Qed.

(** X5. A text without slash, such as a bare code, is left as it is by
    [remove_links]. *)
Theorem remove_links_without_slash (text : string) :
  has_char "/" text = false -> remove_links text = text.
Proof.
  intros H. unfold remove_links, links. cbn [fold_left].
  rewrite (str_remove_absent_char "/" ("discord.gift" ++ "/") text)
    by (reflexivity || exact H).
  rewrite (str_remove_absent_char "/" ("discordapp.com/gifts" ++ "/") text)
    by (reflexivity || exact H).
  apply (str_remove_absent_char "/"); [reflexivity | exact H].
Qed.

Lemma str_remove_from_sublist (old : string) (text : string) :
  forall skip,
    sublist (list_ascii_of_string (str_remove_from old skip text))
            (list_ascii_of_string text).
Proof.
  induction text as [|c text IH]; intros skip; [constructor|].
  cbn [str_remove_from list_ascii_of_string]. destruct skip as [|skip].
  - destruct (String.prefix old (String c text)).
    + apply sublist_cons, IH.
    + cbn [list_ascii_of_string]. apply sublist_skip, IH.
  - apply sublist_cons, IH.
Qed.

(** X6. [remove_links] only deletes characters: what it returns is a
    subsequence of its argument, hence never longer. *)
Theorem remove_links_deletes_only (text : string) :
  sublist (list_ascii_of_string (remove_links text)) (list_ascii_of_string text)
  /\ (String.length (remove_links text) <= String.length text)%nat.
Proof.
  assert (H : sublist (list_ascii_of_string (remove_links text))
                (list_ascii_of_string text)).
  { unfold remove_links, links, str_remove. cbn [fold_left].
    etransitivity; [apply str_remove_from_sublist|].
    etransitivity; [apply str_remove_from_sublist|].
    apply str_remove_from_sublist. }
  split; [exact H|]. apply sublist_length in H.
  assert (L : forall s, List.length (list_ascii_of_string s) = String.length s)
    by (induction s; cbn; congruence).
  now rewrite !L in H.
Qed.
End ExtractorShape.

(** ** The redemption loop *)

Section Loop.
Import NitroRedeemer Trace.
Local Open Scope list_scope.
Variable env : Env.

Local Abbreviation handle_errors := ErrorHandler.handle_errors.

(** One iteration of the loop, case by case. *)
Lemma redeem_loop_cons code token rest payment_required response tok self w :
  redeem_loop env code (token :: rest) payment_required response tok self w
  = match dict_get token (tokens self) with
    | None => (Raise (KeyError token), self, w)
    | Some payment_id =>
        if payment_required && negb (truthy payment_id) then
          redeem_loop env code rest payment_required response (Some token)
            self w
        else match backoff_active (time_at env (ticks w)) self with
        | Some true => (Ok (Some token, response), self, tick 1 w)
        | Some false =>
          let req := mkRequest code token payment_id in
          match post_at env (List.length (sent w)) req with
          | None =>
              (Raise ClientError, self,
               {| ticks := 2 + ticks w; sent := sent w ++ [req];
                  stdout := stdout w |})
          | Some reply =>
              let r := handle_errors (text reply) in
              let self1 := recorded code r (latency env w) self in
              let w1 := attempted req w in
              match r with
              | ALREADY_CLAIMED | INVALID_GIFT => (Ok (Some token, r), self1, w1)
              | CLAIMED => (Ok (Some token, r), self1, printed (text reply) w1)
              | NO_PAYMENT_SOURCE =>
                  redeem_loop env code rest true r (Some token) self1 w1
              | NOT_VERIFIED =>
                  redeem_loop env code rest payment_required r (Some token)
                    (without_token token self1) w1
              | RATE_LIMITED =>
                  match json reply with
                  | None => (Raise JSONDecodeError, self1, w1)
                  | Some NotObject => (Raise TypeError, self1, tick 1 w1)
                  | Some (Object None) =>
                      (Raise (KeyError "retry_after"), self1, tick 1 w1)
                  | Some (Object (Some delay)) =>
                      (Ok (Some token, r),
                       with_rate_limits
                         {| rate_timestamp := time_at env (3 + ticks w);
                            rate_delay := delay |} self1,
                       tick 1 w1)
                  end
              | _ =>
                  redeem_loop env code rest payment_required r (Some token)
                    self1 w1
              end
          end
        | None => (Raise TypeError, self, tick 1 w)
        end
    end.
Proof.
  cbn [redeem_loop]. unfold bind at 1. unfold tokens_getitem at 1.
  destruct (dict_get token (tokens self)) as [payment_id|] eqn:Hget;
    [|reflexivity].
  destruct (payment_required && negb (truthy payment_id)); [reflexivity|].
  unfold bind at 1, time_time at 1. unfold bind at 1, get_rate_limits at 1.
  unfold bind at 1, compare_le at 1.
  unfold backoff_active. cbn [rate_limits].
  destruct (float_le _ _) as [[|]|]; [reflexivity| |reflexivity].
  unfold ret at 1. cbv iota.
  unfold bind at 1, time_time at 1. unfold bind at 1, session_post at 1.
  cbn [sent ticks stdout].
  destruct (post_at env _ _) as [reply|]; [|reflexivity].
  cbv zeta. unfold bind at 1, time_time at 1. cbn [sent ticks stdout].
  unfold bind at 1, data_append at 1. unfold bind at 1, cache_setitem at 1.
  cbn [tokens cache rate_limits data].
  destruct (handle_errors (text reply)) eqn:Hr;
    repeat (destruct (decide _) as [?|?]; try discriminate; try congruence);
    unfold tokens_delitem, request_json, json_retry_after, bind, ret, raise,
      print, set_rate_limits, time_time; cbn; try reflexivity.
  - destruct (json reply) as [[[delay|]|]|]; reflexivity.
  - rewrite Hget. reflexivity.
Qed.

(** Case analysis on one iteration: [H] is an equation on the result of
    the loop at a non-empty snapshot. *)
Ltac loop_cases H :=
  rewrite redeem_loop_cons in H;
  let pid := fresh "payment_id" in
  let Hget := fresh "Hget" in
  let Hskip := fresh "Hskip" in
  let Hback := fresh "Hback" in
  let reply := fresh "reply" in
  let Hpost := fresh "Hpost" in
  let Hr := fresh "Hr" in
  let Hjson := fresh "Hjson" in
  let delay := fresh "delay" in
  destruct (dict_get _ (tokens _)) as [pid|] eqn:Hget;
  [ destruct (_ && negb (truthy pid)) eqn:Hskip;
    [ | destruct (backoff_active _ _) as [[|]|] eqn:Hback;
        [ | cbv zeta in H;
            destruct (post_at env _ _) as [reply|] eqn:Hpost;
            [ destruct (handle_errors (text reply)) eqn:Hr;
              [ destruct (json reply) as [[[delay|]|]|] eqn:Hjson | .. ] | ]
          | ] ]
  | ].

Lemma outcome_at_reply n req reply :
  post_at env n req = Some reply ->
  outcome_at env n req = Some (handle_errors (text reply)).
Proof. unfold outcome_at. now intros ->. Qed.

Lemma last_outcome_cons n req reqs resp r :
  outcome_at env n req = Some r ->
  last_outcome env n (req :: reqs) resp = last_outcome env (S n) reqs r.
Proof. cbn [last_outcome]. now intros ->. Qed.

Lemma length_snoc {A} (l : list A) (x : A) :
  List.length (l ++ [x]) = S (List.length l).
Proof. rewrite length_app. simpl. lia. Qed.

Lemma dict_keys_del {V} (k token : string) (d : list (string * V)) :
  In k (dict_keys (dict_del token d)) <-> In k (dict_keys d) /\ k <> token.
Proof.
  unfold dict_keys, dict_del. rewrite !in_map_iff. split.
  - intros ([k' v] & <- & Hin). apply filter_In in Hin as [Hin Hne].
    cbn in *. split; [exists (k', v); auto|].
    intros ->. rewrite String.eqb_refl in Hne. discriminate.
  - intros [([k' v] & <- & Hin) Hne]. exists (k', v). split; [reflexivity|].
    apply filter_In. split; [exact Hin|]. cbn in *.
    destruct (String.eqb_spec k' token); [contradiction | reflexivity].
Qed.

Lemma dict_get_keys {V} (k : string) (d : list (string * V)) (v : V) :
  dict_get k d = Some v -> In k (dict_keys d).
Proof.
  induction d as [|[k' v'] d IH]; [discriminate|]. cbn.
  destruct (String.eqb_spec k' k); [left; assumption | right; auto].
Qed.

(** What the loop does to the requests sent, the token dictionary and the
    cache, whatever its result. *)
Lemma redeem_loop_spec code snapshot :
  forall payment_required response tok self w res self' w',
    redeem_loop env code snapshot payment_required response tok self w
    = (res, self', w') ->
    exists new,
      sent w' = sent w ++ new
      /\ Forall (fun req => gift_code req = code
                            /\ In (authorization req) (dict_keys (tokens self)))
                new
      /\ (forall k, In k (dict_keys (tokens self')) ->
                    In k (dict_keys (tokens self)))
      /\ (cache self !! code = Some response ->
          cache self'
          = <[code := last_outcome env (List.length (sent w)) new response]>
              (cache self))
      /\ (forall tok' r, res = Ok (tok', r) ->
            r = last_outcome env (List.length (sent w)) new response).
Proof.
  induction snapshot as [|token rest IH];
    intros payment_required response tok self w res self' w' H.
  - injection H as <- <- <-. exists []. rewrite app_nil_r.
    repeat split; auto; cbn; [intros Hc; now rewrite insert_id | congruence].
  - loop_cases H.
    (* the token is skipped *)
    1: exact (IH _ _ _ _ _ _ _ _ H).
    (* backoff, and the token has vanished *)
    1, 15, 16: injection H as <- <- <-; exists []; rewrite app_nil_r;
      repeat split; auto; cbn; [intros Hc; now rewrite insert_id | congruence].
    (* the request raised *)
    13: { injection H as <- <- <-. exists [mkRequest code token payment_id].
          cbn. unfold outcome_at. rewrite Hpost.
          repeat split; auto; try discriminate.
          - repeat constructor. cbn. eapply dict_get_keys, Hget.
          - intros Hc. now rewrite insert_id. }
    (* an attempt after which the loop goes on *)
    all: try (apply IH in H;
      destruct H as (new & Hs & Hf & Hk & Hca & Hok);
      exists (mkRequest code token payment_id :: new);
      rewrite (last_outcome_cons _ _ _ _ _ (outcome_at_reply _ _ _ Hpost)), Hr;
      rewrite Hs; cbn [attempted sent recorded cache tokens without_token] in *;
      rewrite length_snoc in *; rewrite <- app_assoc;
      repeat split; auto;
      try solve
        [ constructor; [split; [reflexivity | eapply dict_get_keys, Hget]|];
          eapply Forall_impl; [exact Hf|]; cbn; intros ? [? Hin]; split; auto;
          apply dict_keys_del in Hin; tauto
        | intros k Hin; apply Hk in Hin; apply dict_keys_del in Hin; tauto
        | intros _; rewrite Hca by apply lookup_insert_eq;
          apply insert_insert_eq ]).
    (* an attempt that ends the loop *)
    all: injection H as <- <- <-; exists [mkRequest code token payment_id];
      rewrite (last_outcome_cons _ _ _ _ _ (outcome_at_reply _ _ _ Hpost)), Hr;
      cbn; repeat split; auto; try discriminate;
      try (repeat constructor; cbn; eapply dict_get_keys, Hget);
      try (intros ? ? E; injection E as <- <-; reflexivity).
Qed.

(** ** Whole calls *)

Lemma redeem_code_cached code self w :
  is_Some (cache self !! code) ->
  redeem_code env code self w = (Ok (None, IN_CACHE), self, w).
Proof. intros [r Hr]. unfold redeem_code. rewrite Hr. reflexivity. Qed.

Lemma redeem_code_fresh code self w :
  cache self !! code = None ->
  redeem_code env code self w
  = redeem_loop env code (dict_keys (tokens self)) false RATE_LIMITED None
      {| tokens := tokens self; cache := <[code := RATE_LIMITED]> (cache self);
         rate_limits := rate_limits self; data := data self |} w.
Proof. intros Hc. unfold redeem_code. rewrite Hc. reflexivity. Qed.

(** A call on a code that is not cached. *)
Lemma redeem_code_spec code self w res self' w' :
  cache self !! code = None ->
  redeem_code env code self w = (res, self', w') ->
  exists new,
    sent w' = sent w ++ new
    /\ Forall (fun req => gift_code req = code
                          /\ In (authorization req) (dict_keys (tokens self)))
              new
    /\ (forall k, In k (dict_keys (tokens self')) ->
                  In k (dict_keys (tokens self)))
    /\ cache self'
       = <[code := last_outcome env (List.length (sent w)) new RATE_LIMITED]>
           (cache self)
    /\ (forall tok' r, res = Ok (tok', r) ->
          r = last_outcome env (List.length (sent w)) new RATE_LIMITED).
Proof.
  intros Hc H. rewrite (redeem_code_fresh _ _ _ Hc) in H.
  apply redeem_loop_spec in H.
  destruct H as (new & Hs & Hf & Hk & Hca & Hok). exists new.
  cbn [tokens cache] in *. repeat split; auto.
  rewrite Hca by apply lookup_insert_eq. apply insert_insert_eq.
Qed.

(** Any call: what is sent, and that the token dictionary only shrinks
    and the cache only grows. *)
Lemma redeem_code_any code self w res self' w' :
  redeem_code env code self w = (res, self', w') ->
  exists new,
    sent w' = sent w ++ new
    /\ Forall (fun req => cache self !! gift_code req = None
                          /\ In (authorization req) (dict_keys (tokens self)))
              new
    /\ (forall k, In k (dict_keys (tokens self')) ->
                  In k (dict_keys (tokens self)))
    /\ (forall k, is_Some (cache self !! k) -> is_Some (cache self' !! k))
    /\ is_Some (cache self' !! code).
Proof.
  intros H. destruct (cache self !! code) as [r|] eqn:Hc.
  - rewrite redeem_code_cached in H by (rewrite Hc; eauto).
    injection H as <- <- <-. exists []. rewrite app_nil_r, Hc.
    repeat split; eauto.
  - destruct (redeem_code_spec _ _ _ _ _ _ Hc H)
      as (new & Hs & Hf & Hk & Hca & _).
    exists new. repeat split; auto.
    + eapply Forall_impl; [exact Hf|]. cbn. intros req [-> Hin]. auto.
    + intros k Hk'. rewrite Hca. destruct (decide (code = k)) as [->|Hne].
      * rewrite lookup_insert_eq. eauto.
      * rewrite lookup_insert_ne by exact Hne. exact Hk'.
    + rewrite Hca, lookup_insert_eq. eauto.
Qed.

(** Any sequence of calls. *)
Lemma redeem_all_spec codes :
  forall self w self' w',
    redeem_all env codes self w = (self', w') ->
    exists later,
      sent w' = sent w ++ later
      /\ Forall (fun req => cache self !! gift_code req = None
                            /\ In (authorization req) (dict_keys (tokens self)))
                later
      /\ (forall k, In k (dict_keys (tokens self')) ->
                    In k (dict_keys (tokens self)))
      /\ (forall k, is_Some (cache self !! k) -> is_Some (cache self' !! k)).
Proof.
  induction codes as [|code codes IH]; intros self w self' w' H.
  - injection H as <- <-. exists []. rewrite app_nil_r. auto.
  - cbn [redeem_all] in H.
    destruct (redeem_code env code self w) as [[res self1] w1] eqn:H1.
    apply redeem_code_any in H1 as (new & Hs & Hf & Hk & Hc & _).
    apply IH in H as (later & Hs' & Hf' & Hk' & Hc').
    exists (new ++ later). rewrite Hs', Hs, app_assoc.
    repeat split; auto.
    apply Forall_app. split; [exact Hf|].
    eapply Forall_impl; [exact Hf'|]. cbn. intros req [Hn Hin]. split; auto.
    destruct (cache self !! gift_code req) eqn:E; [|reflexivity].
    destruct (Hc (gift_code req)) as [x Hx]; [rewrite E; eauto|]. congruence.
Qed.

(** C1. When the code is already a key of the cache, [redeem_code] returns
    [(None, IN_CACHE)] and leaves [self] (cache, tokens, rate limits,
    latency samples) and the world (no request sent, no clock reading)
    as they were. *)
Theorem redeem_code_in_cache code self w :
  is_Some (cache self !! code) ->
  redeem_code env code self w = (Ok (None, IN_CACHE), self, w).
Proof. exact (redeem_code_cached code self w). Qed.

(** C7. A call on a code that is not cached puts the code in the cache
    with [RATE_LIMITED] before anything is sent and overwrites the entry
    with the classification of every reply: whatever the call returns or
    raises, the cache afterwards maps the code to the classification of
    the last answered request, [RATE_LIMITED] when there is none.  From
    then on, through any further calls, no request for this code is sent,
    and a call on the code returns [(None, IN_CACHE)] and changes
    nothing; in particular when the first call returned [CLAIMED]. *)
Theorem redeem_code_reserves_code code self w res self' w' :
  cache self !! code = None ->
  redeem_code env code self w = (res, self', w') ->
  exists new,
    sent w' = sent w ++ new
    /\ cache self'
       = <[code := last_outcome env (List.length (sent w)) new RATE_LIMITED]>
           (cache self)
    /\ (forall tok r, res = Ok (tok, r) ->
          r = last_outcome env (List.length (sent w)) new RATE_LIMITED)
    /\ (forall codes self'' w'',
          redeem_all env codes self' w' = (self'', w'') ->
          (exists later,
              sent w'' = sent w' ++ later
              /\ Forall (fun req => gift_code req <> code) later)
          /\ redeem_code env code self'' w'' = (Ok (None, IN_CACHE), self'', w'')).
Proof.
  intros Hc H.
  destruct (redeem_code_spec _ _ _ _ _ _ Hc H) as (new & Hs & _ & _ & Hca & Hok).
  exists new. split; [exact Hs|]. split; [exact Hca|]. split; [exact Hok|].
  intros codes self'' w'' Hall.
  apply redeem_all_spec in Hall as (later & Hs' & Hf' & _ & Hc').
  split.
  - exists later. split; [exact Hs'|].
    eapply Forall_impl; [exact Hf'|]. cbn. intros req [Hn _] E.
    rewrite E, Hca, lookup_insert_eq in Hn. discriminate.
  - apply redeem_code_cached, Hc'. rewrite Hca, lookup_insert_eq. eauto.
Qed.

(** ** Rate limits *)

(** C5, as the code has it. When the reply to an attempt is classified
    [RATE_LIMITED] the loop ends there: the tokens left in the snapshot are
    not tried.  When the body of the reply is a JSON object with a
    [retry_after], the rate-limit state becomes the clock reading made after
    the reply together with that [retry_after], whatever value it holds, and
    the loop returns.  When the body is not JSON, is not an object or has
    no [retry_after], the call raises instead ([JSONDecodeError], [TypeError],
    [KeyError]) and the rate-limit state is left as it was. *)
Theorem rate_limited_reply_sets_backoff
    code token rest payment_required response tok self w payment_id reply :
  dict_get token (tokens self) = Some payment_id ->
  payment_required && negb (truthy payment_id) = false ->
  backoff_active (time_at env (ticks w)) self = Some false ->
  post_at env (List.length (sent w)) (mkRequest code token payment_id)
    = Some reply ->
  handle_errors (text reply) = RATE_LIMITED ->
  rate_limits (recorded code RATE_LIMITED (latency env w) self)
  = rate_limits self
  /\ redeem_loop env code (token :: rest) payment_required response tok self w
     = match json reply with
       | Some (Object (Some delay)) =>
           (Ok (Some token, RATE_LIMITED),
            with_rate_limits
              {| rate_timestamp := time_at env (3 + ticks w);
                 rate_delay := delay |}
              (recorded code RATE_LIMITED (latency env w) self),
            tick 1 (attempted (mkRequest code token payment_id) w))
       | Some (Object None) =>
           (Raise (KeyError "retry_after"),
            recorded code RATE_LIMITED (latency env w) self,
            tick 1 (attempted (mkRequest code token payment_id) w))
       | Some NotObject =>
           (Raise TypeError,
            recorded code RATE_LIMITED (latency env w) self,
            tick 1 (attempted (mkRequest code token payment_id) w))
       | None =>
           (Raise JSONDecodeError,
            recorded code RATE_LIMITED (latency env w) self,
            attempted (mkRequest code token payment_id) w)
       end.
Proof.
  intros Hget Hskip Hback Hpost Hr. split; [reflexivity|].
  rewrite redeem_loop_cons, Hget, Hskip, Hback. cbv zeta.
  rewrite Hpost, Hr. destruct (json reply) as [[[delay|]|]|]; reflexivity.
Qed.

Lemma dict_get_head {V} (d : list (string * V)) token rest :
  dict_keys d = token :: rest -> exists v, dict_get token d = Some v.
Proof.
  destruct d as [|[k v] d]; [discriminate|]. cbn. intros [= -> _].
  rewrite String.eqb_refl. eauto.
Qed.

(** A call on a fresh code while the backoff is active: nothing is sent. *)
Lemma redeem_code_blocked code self w :
  cache self !! code = None ->
  (tokens self <> [] ->
   backoff_active (time_at env (ticks w)) self = Some true) ->
  exists tok self' w',
    redeem_code env code self w = (Ok (tok, RATE_LIMITED), self', w')
    /\ sent w' = sent w
    /\ rate_limits self' = rate_limits self
    /\ tok = head (dict_keys (tokens self)).
Proof.
  intros Hc Hb. rewrite (redeem_code_fresh _ _ _ Hc).
  destruct (dict_keys (tokens self)) as [|token rest] eqn:Hk.
  - cbn. eauto 8.
  - destruct (dict_get_head _ _ _ Hk) as [pid Hget].
    rewrite redeem_loop_cons. cbn [tokens]. rewrite Hget. cbn [andb].
    unfold backoff_active in *. cbn [rate_limits]. rewrite Hb.
    + eauto 8.
    + intros E. rewrite E in Hk. discriminate.
Qed.

(** A loop that returns [RATE_LIMITED] after having sent something ended
    on a rate-limited reply, which set the rate-limit state. *)
Lemma redeem_loop_rate_limited code snapshot :
  forall payment_required response tok self w tok' self' w',
    redeem_loop env code snapshot payment_required response tok self w
    = (Ok (tok', RATE_LIMITED), self', w') ->
    (sent w' = sent w /\ response = RATE_LIMITED)
    \/ exists earlier req reply delay,
        sent w' = earlier ++ [req]
        /\ post_at env (List.length earlier) req = Some reply
        /\ json reply = Some (Object (Some delay))
        /\ rate_limits self'
           = {| rate_timestamp := time_at env (Nat.pred (ticks w'));
                rate_delay := delay |}.
Proof.
  induction snapshot as [|token rest IH];
    intros payment_required response tok self w tok' self' w' H.
  - injection H as _ <- <- <-. left. auto.
  - loop_cases H.
    all: try discriminate H.
    (* skipped *)
    1: exact (IH _ _ _ _ _ _ _ _ H).
    (* backoff *)
    1: injection H as _ <- <- <-; left; auto.
    (* the rate-limited reply *)
    1: { injection H as _ <- <-. right.
         exists (sent w), (mkRequest code token payment_id), reply, delay.
         repeat split; auto. }
    (* the loop goes on *)
    all: apply IH in H as [[Hs Hr']|H]; [discriminate Hr' | right; exact H].
Qed.

Lemma backoff_active_true now self delay :
  rate_delay (rate_limits self) = VNumber delay ->
  backoff_active now self = Some true
  <-> (now - rate_timestamp (rate_limits self) <= delay)%Q.
Proof.
  unfold backoff_active. intros ->. cbn [float_le].
  rewrite <- Qle_bool_iff. split; [now intros [= ->] | now intros ->].
Qed.

Lemma backoff_active_false now self delay :
  rate_delay (rate_limits self) = VNumber delay ->
  backoff_active now self = Some false
  <-> (delay < now - rate_timestamp (rate_limits self))%Q.
Proof.
  unfold backoff_active. intros ->. cbn [float_le]. split.
  - intros [= Hf]. apply Qnot_le_lt. intros Hle.
    apply Qle_bool_iff in Hle. congruence.
  - intros Hlt. destruct (Qle_bool _ _) eqn:E; [|reflexivity].
    apply Qle_bool_iff in E. apply Qlt_not_le in Hlt. contradiction.
Qed.

(** C2, as the code has it. At a token that is not skipped for want of a
    payment source, and with a number as the stored delay, the loop sends a
    request exactly when the time elapsed since the rate-limit timestamp is
    strictly greater than the stored delay: while the elapsed time is less than or equal to the delay the
    loop ends without trying this or any further token, the local outcome
    unchanged.  In particular, when a call has ended on a rate-limited
    reply whose [retry_after] is 5, a call on a fresh code whose clock
    reading is at most 5 seconds after the rate-limit timestamp sends
    nothing and returns [RATE_LIMITED]. *)
Theorem backoff_blocks_until_delay_exceeded :
  (forall code token rest payment_required response tok self w payment_id
          delay,
      dict_get token (tokens self) = Some payment_id ->
      payment_required && negb (truthy payment_id) = false ->
      rate_delay (rate_limits self) = VNumber delay ->
      ((time_at env (ticks w) - rate_timestamp (rate_limits self)
        <= delay)%Q ->
       redeem_loop env code (token :: rest) payment_required response tok
         self w
       = (Ok (Some token, response), self, tick 1 w))
      /\ ((delay
           < time_at env (ticks w) - rate_timestamp (rate_limits self))%Q ->
          exists res self' w' new,
            redeem_loop env code (token :: rest) payment_required response
              tok self w
            = (res, self', w')
            /\ sent w' = sent w ++ mkRequest code token payment_id :: new))
  /\ (forall code1 self w tok1 self1 w1 code2,
        redeem_code env code1 self w = (Ok (tok1, RATE_LIMITED), self1, w1) ->
        sent w1 <> sent w ->
        (forall earlier req reply,
            sent w1 = earlier ++ [req] ->
            post_at env (List.length earlier) req = Some reply ->
            json reply = Some (Object (Some (VNumber 5)))) ->
        cache self1 !! code2 = None ->
        (time_at env (ticks w1) - time_at env (Nat.pred (ticks w1)) <= 5)%Q ->
        exists tok2 self2 w2,
          redeem_code env code2 self1 w1 = (Ok (tok2, RATE_LIMITED), self2, w2)
          /\ sent w2 = sent w1).
Proof.
  split.
  - intros code token rest payment_required response tok self w payment_id
      delay Hget Hskip Hdelay. split.
    + intros Hle. apply (backoff_active_true _ _ _ Hdelay) in Hle.
      rewrite redeem_loop_cons, Hget, Hskip, Hle. reflexivity.
    + intros Hlt. apply (backoff_active_false _ _ _ Hdelay) in Hlt.
      destruct (redeem_loop env code (token :: rest) payment_required
                  response tok self w) as [[res self'] w'] eqn:H.
      exists res, self', w'.
      assert (Hc : exists new,
                sent w' = sent w ++ mkRequest code token payment_id :: new);
        [|destruct Hc as [new Hn]; exists new; auto].
      rewrite redeem_loop_cons, Hget, Hskip, Hlt in H. cbv zeta in H.
      destruct (post_at env _ _) as [reply|] eqn:Hpost;
        [|injection H as <- <- <-; exists []; reflexivity].
      destruct (handle_errors (text reply));
        [ destruct (json reply) as [[[delay'|]|]|] | .. ];
        try (injection H as <- <- <-; exists []; reflexivity);
        apply redeem_loop_spec in H as (new & Hs & _);
        exists new; rewrite Hs; cbn; now rewrite <- app_assoc.
  - intros code1 self w tok1 self1 w1 code2 H1 Hsent Hretry Hc2 Hwithin.
    assert (Hrl : rate_limits self1
                  = {| rate_timestamp := time_at env (Nat.pred (ticks w1));
                       rate_delay := VNumber 5 |}).
    { unfold redeem_code in H1. destruct (cache self !! code1).
      - discriminate H1.
      - unfold bind, cache_setitem in H1.
        apply redeem_loop_rate_limited in H1
          as [[Hs _]|(earlier & req & reply & delay & Hs & Hp & Hj & Hr)];
          [contradiction|].
        rewrite (Hretry _ _ _ Hs Hp) in Hj. injection Hj as <-. exact Hr. }
    destruct (redeem_code_blocked code2 self1 w1 Hc2)
      as (tok2 & self2 & w2 & H2 & Hs2 & _).
    + intros _. apply (backoff_active_true _ _ 5); rewrite Hrl;
        [reflexivity | exact Hwithin].
    + eauto.
Qed.

(** ** Tokens that are not verified *)

(** The requests sent by a loop that starts with an attempt. *)
Lemma sent_after_attempt (w w' : World) (req : Request) (new : list Request) :
  sent w' = sent w ++ new ->
  (exists new', sent w' = sent (attempted req w) ++ new') ->
  exists new', new = req :: new' /\ sent w' = sent (attempted req w) ++ new'.
Proof.
  intros Hs [new' Hs']. exists new'. split; [|exact Hs'].
  cbn [attempted sent] in Hs'. rewrite <- app_assoc, Hs in Hs'.
  exact (app_inv_head _ _ _ Hs').
Qed.

Lemma redeem_loop_extends code snapshot payment_required response tok self w
    res self' w' :
  redeem_loop env code snapshot payment_required response tok self w
  = (res, self', w') ->
  exists new, sent w' = sent w ++ new.
Proof.
  intros H. apply redeem_loop_spec in H as (new & Hs & _). eauto.
Qed.

Lemma new_nil {A} (l new : list A) : l = l ++ new -> new = [].
Proof.
  intros H. rewrite <- (app_nil_r l) in H at 1.
  symmetry. exact (app_inv_head _ _ _ H).
Qed.

Lemma new_single {A} (l new : list A) (x : A) :
  l ++ [x] = l ++ new -> new = [x].
Proof. intros H. symmetry. exact (app_inv_head _ _ _ H). Qed.

(** In the requests of one loop, the token of a request answered
    [NOT_VERIFIED] is gone from the dictionary at the end and is not used
    by any later request. *)
Lemma redeem_loop_not_verified code snapshot :
  forall payment_required response tok self w res self' w' new,
    redeem_loop env code snapshot payment_required response tok self w
    = (res, self', w') ->
    sent w' = sent w ++ new ->
    forall before req after,
      new = before ++ req :: after ->
      outcome_at env (List.length (sent w) + List.length before) req
        = Some NOT_VERIFIED ->
      ~ In (authorization req) (dict_keys (tokens self'))
      /\ Forall (fun req' => authorization req' <> authorization req) after.
Proof.
  induction snapshot as [|token rest IH];
    intros payment_required response tok self w res self' w' new H Hs
      before req after Hdec Hout.
  - injection H as <- <- <-. apply new_nil in Hs. subst new.
    destruct before; discriminate Hdec.
  - loop_cases H.
    (* skipped *)
    1: exact (IH _ _ _ _ _ _ _ _ _ H Hs _ _ _ Hdec Hout).
    (* nothing sent *)
    1, 15, 16: injection H as <- <- <-; apply new_nil in Hs; subst new;
      destruct before; discriminate Hdec.
    (* the request raised *)
    13: { injection H as <- <- <-. apply new_single in Hs. subst new.
          destruct before as [|b [|]]; try discriminate Hdec.
          injection Hdec as <- <-. cbn in Hout. rewrite Nat.add_0_r in Hout.
          unfold outcome_at in Hout. rewrite Hpost in Hout. discriminate. }
    (* the loop goes on *)
    all: try (
      destruct (sent_after_attempt _ _ _ _ Hs (redeem_loop_extends _ _ _ _ _ _ _ _ _ _ H))
        as (new' & -> & Hs');
      destruct before as [|b before];
      [ injection Hdec as <- <-; rewrite Nat.add_0_r in Hout;
        rewrite (outcome_at_reply _ _ _ Hpost), Hr in Hout;
        try discriminate Hout
      | injection Hdec as <- ->;
        refine (IH _ _ _ _ _ _ _ _ _ H Hs' _ _ _ eq_refl _);
        cbn [attempted sent]; rewrite length_snoc;
        cbn [List.length] in Hout; rewrite Nat.add_succ_r in Hout;
        exact Hout ]).
    (* an attempt that ends the loop *)
    all: try (injection H as <- <- <-; apply new_single in Hs; subst new;
      destruct before as [|b [|]]; try discriminate Hdec;
      injection Hdec as <- <-; rewrite Nat.add_0_r in Hout;
      rewrite (outcome_at_reply _ _ _ Hpost), Hr in Hout; discriminate Hout).
    (* the reply NOT_VERIFIED itself *)
    apply redeem_loop_spec in H as (new'' & Hs'' & Hf & Hk & _).
    rewrite Hs' in Hs''. apply app_inv_head in Hs''. subst new''.
    cbn [without_token recorded tokens authorization] in *. split.
    + intros Hin. apply Hk, dict_keys_del in Hin. tauto.
    + eapply Forall_impl; [exact Hf|]. cbn. intros req' [_ Hin] E.
      rewrite E in Hin. apply dict_keys_del in Hin. tauto.
Qed.

(** C6. When the reply to an attempt with a token is classified
    [NOT_VERIFIED], the token is deleted from the token dictionary and the
    loop goes on with the next token of the snapshot; the token is not used
    by any request sent afterwards, in this call or in any later call for
    any code, and it is absent from the dictionary from then on. *)
Theorem not_verified_token_is_dropped :
  (forall code token rest payment_required response tok self w payment_id reply,
      dict_get token (tokens self) = Some payment_id ->
      payment_required && negb (truthy payment_id) = false ->
      backoff_active (time_at env (ticks w)) self = Some false ->
      post_at env (List.length (sent w)) (mkRequest code token payment_id)
        = Some reply ->
      handle_errors (text reply) = NOT_VERIFIED ->
      redeem_loop env code (token :: rest) payment_required response tok self w
      = redeem_loop env code rest payment_required NOT_VERIFIED (Some token)
          (without_token token (recorded code NOT_VERIFIED (latency env w) self))
          (attempted (mkRequest code token payment_id) w))
  /\ (forall code self w res self' w' before req after,
        redeem_code env code self w = (res, self', w') ->
        sent w' = sent w ++ before ++ req :: after ->
        outcome_at env (List.length (sent w) + List.length before) req
          = Some NOT_VERIFIED ->
        ~ In (authorization req) (dict_keys (tokens self'))
        /\ Forall (fun req' => authorization req' <> authorization req) after
        /\ (forall codes self'' w'',
              redeem_all env codes self' w' = (self'', w'') ->
              ~ In (authorization req) (dict_keys (tokens self''))
              /\ exists later,
                  sent w'' = sent w' ++ later
                  /\ Forall (fun req' => authorization req' <> authorization req)
                       later)).
Proof.
  split.
  - intros code token rest payment_required response tok self w payment_id
      reply Hget Hskip Hback Hpost Hr.
    rewrite redeem_loop_cons, Hget, Hskip, Hback. cbv zeta.
    rewrite Hpost, Hr. reflexivity.
  - intros code self w res self' w' before req after H Hs Hout.
    assert (Hgone : ~ In (authorization req) (dict_keys (tokens self'))
              /\ Forall (fun req' => authorization req' <> authorization req)
                   after).
    { unfold redeem_code in H. destruct (cache self !! code).
      - injection H as <- <- <-. apply new_nil in Hs.
        destruct before; discriminate Hs.
      - unfold bind, cache_setitem in H.
        exact (redeem_loop_not_verified _ _ _ _ _ _ _ _ _ _ _ H Hs _ _ _
                 eq_refl Hout). }
    destruct Hgone as [Hgone Hafter].
    split; [exact Hgone|]. split; [exact Hafter|].
    intros codes self'' w'' Hall.
    apply redeem_all_spec in Hall as (later & Hs' & Hf & Hk & _). split.
    + intros Hin. apply Hgone, Hk, Hin.
    + exists later. split; [exact Hs'|].
      eapply Forall_impl; [exact Hf|]. cbn. intros req' [_ Hin] E.
      rewrite E in Hin. contradiction.
Qed.

(** ** Payment sources *)

Lemma skip_false_truthy (payment_required : bool) (payment_id : option string) :
  payment_required && negb (truthy payment_id) = false ->
  payment_required = true -> truthy payment_id = true.
Proof. intros H ->. now destruct (truthy payment_id). Qed.

(** Once a payment source is required, every request of the loop carries
    one; and it is required after a reply [NO_PAYMENT_SOURCE]. *)
Lemma redeem_loop_payment code snapshot :
  forall payment_required response tok self w res self' w' new,
    redeem_loop env code snapshot payment_required response tok self w
    = (res, self', w') ->
    sent w' = sent w ++ new ->
    (payment_required = true ->
     Forall (fun req => truthy (payment_source_id req) = true) new)
    /\ (forall before req after,
          new = before ++ req :: after ->
          outcome_at env (List.length (sent w) + List.length before) req
            = Some NO_PAYMENT_SOURCE ->
          Forall (fun req' => truthy (payment_source_id req') = true) after).
Proof.
  induction snapshot as [|token rest IH];
    intros payment_required response tok self w res self' w' new H Hs.
  - injection H as <- <- <-. apply new_nil in Hs. subst new.
    split; [constructor|]. intros [|] ? ? Hdec; discriminate Hdec.
  - loop_cases H.
    (* skipped *)
    1: exact (IH _ _ _ _ _ _ _ _ _ H Hs).
    (* nothing sent *)
    1, 15, 16: injection H as <- <- <-; apply new_nil in Hs; subst new;
      (split; [constructor|]); intros [|] ? ? Hdec; discriminate Hdec.
    (* the request raised *)
    13: { injection H as <- <- <-. apply new_single in Hs. subst new. split.
          - intros Hp. repeat constructor. cbn.
            exact (skip_false_truthy _ _ Hskip Hp).
          - intros [|b [|]] ? ? Hdec; try discriminate Hdec.
            injection Hdec as <- <-. constructor. }
    (* the loop goes on *)
    all: try (
      destruct (sent_after_attempt _ _ _ _ Hs (redeem_loop_extends _ _ _ _ _ _ _ _ _ _ H))
        as (new' & -> & Hs');
      destruct (IH _ _ _ _ _ _ _ _ _ H Hs') as [IH1 IH2]; split;
      [ intros Hp; constructor;
        [exact (skip_false_truthy _ _ Hskip Hp) | auto]
      | intros [|b before] req after Hdec Hout;
        [ injection Hdec as <- <-; rewrite Nat.add_0_r in Hout;
          rewrite (outcome_at_reply _ _ _ Hpost), Hr in Hout;
          first [discriminate Hout | exact (IH1 eq_refl)]
        | injection Hdec as <- ->;
          refine (IH2 _ _ _ eq_refl _);
          cbn [attempted sent]; rewrite length_snoc;
          cbn [List.length] in Hout; rewrite Nat.add_succ_r in Hout;
          exact Hout ] ]).
    (* an attempt that ends the loop *)
    all: injection H as <- <- <-; apply new_single in Hs; subst new; split;
      [ intros Hp; repeat constructor; cbn;
        exact (skip_false_truthy _ _ Hskip Hp)
      | intros [|b [|]] ? ? Hdec; try discriminate Hdec;
        injection Hdec as <- <-; constructor ].
Qed.

(** C8. When the reply to an attempt is classified [NO_PAYMENT_SOURCE] the
    loop goes on with the next token, a payment source now being
    required; while it is required a token without payment source is
    passed over without a request or a clock reading; and in a call every
    request sent after a reply [NO_PAYMENT_SOURCE] carries a payment
    source. *)
Theorem no_payment_source_requires_payment :
  (forall code token rest payment_required response tok self w payment_id reply,
      dict_get token (tokens self) = Some payment_id ->
      payment_required && negb (truthy payment_id) = false ->
      backoff_active (time_at env (ticks w)) self = Some false ->
      post_at env (List.length (sent w)) (mkRequest code token payment_id)
        = Some reply ->
      handle_errors (text reply) = NO_PAYMENT_SOURCE ->
      redeem_loop env code (token :: rest) payment_required response tok self w
      = redeem_loop env code rest true NO_PAYMENT_SOURCE (Some token)
          (recorded code NO_PAYMENT_SOURCE (latency env w) self)
          (attempted (mkRequest code token payment_id) w))
  /\ (forall code token rest response tok self w payment_id,
        dict_get token (tokens self) = Some payment_id ->
        truthy payment_id = false ->
        redeem_loop env code (token :: rest) true response tok self w
        = redeem_loop env code rest true response (Some token) self w)
  /\ (forall code self w res self' w' before req after,
        redeem_code env code self w = (res, self', w') ->
        sent w' = sent w ++ before ++ req :: after ->
        outcome_at env (List.length (sent w) + List.length before) req
          = Some NO_PAYMENT_SOURCE ->
        Forall (fun req' => truthy (payment_source_id req') = true) after).
Proof.
  repeat split.
  - intros code token rest payment_required response tok self w payment_id
      reply Hget Hskip Hback Hpost Hr.
    rewrite redeem_loop_cons, Hget, Hskip, Hback. cbv zeta.
    rewrite Hpost, Hr. reflexivity.
  - intros code token rest response tok self w payment_id Hget Hp.
    rewrite redeem_loop_cons, Hget, Hp. reflexivity.
  - intros code self w res self' w' before req after H Hs Hout.
    unfold redeem_code in H. destruct (cache self !! code).
    + injection H as <- <- <-. apply new_nil in Hs.
      destruct before; discriminate Hs.
    + unfold bind, cache_setitem in H.
      exact (proj2 (redeem_loop_payment _ _ _ _ _ _ _ _ _ _ _ H Hs) _ _ _
               eq_refl Hout).
Qed.

(** ** The pair returned *)

Lemma reached_skip d n token keys payment_required reqs payment_id :
  dict_get token d = Some payment_id ->
  payment_required && negb (truthy payment_id) = true ->
  reached env d n (token :: keys) payment_required reqs
  = token :: reached env d n keys payment_required reqs.
Proof. intros Hd Hskip. cbn [reached]. now rewrite Hd, Hskip. Qed.

Lemma reached_blocked d n token keys payment_required payment_id :
  dict_get token d = Some payment_id ->
  payment_required && negb (truthy payment_id) = false ->
  reached env d n (token :: keys) payment_required [] = [token].
Proof. intros Hd Hskip. cbn [reached]. now rewrite Hd, Hskip. Qed.

Lemma reached_tried d n token keys payment_required req reqs payment_id r :
  dict_get token d = Some payment_id ->
  payment_required && negb (truthy payment_id) = false ->
  outcome_at env n req = Some r ->
  reached env d n (token :: keys) payment_required (req :: reqs)
  = if is_terminal r then [token]
    else token :: reached env d (S n) keys
                    (match r with
                     | NO_PAYMENT_SOURCE => true
                     | _ => payment_required
                     end) reqs.
Proof. intros Hd Hskip Ho. cbn [reached]. now rewrite Hd, Hskip, Ho. Qed.

Lemma dict_get_del {V} (k token : string) (d : list (string * V)) :
  dict_get k (dict_del token d)
  = if String.eqb k token then None else dict_get k d.
Proof.
  unfold dict_del. induction d as [|[k' v'] d IH].
  - cbn. now destruct (String.eqb k token).
  - cbn [List.filter fst dict_get].
    destruct (String.eqb_spec k' token) as [->|Hne]; cbn [negb dict_get].
    + rewrite IH. destruct (String.eqb_spec k token) as [->|Hk]; [reflexivity|].
      destruct (String.eqb_spec token k); [congruence | reflexivity].
    + rewrite IH. destruct (String.eqb_spec k' k) as [->|Hk'].
      * destruct (String.eqb_spec k token); [congruence | reflexivity].
      * reflexivity.
Qed.

Lemma dict_get_del_Some {V} (k token : string) (d : list (string * V)) (v : V) :
  dict_get k (dict_del token d) = Some v -> dict_get k d = Some v.
Proof.
  rewrite dict_get_del. now destruct (String.eqb k token).
Qed.

(** The token returned by the loop is the last token it reached; the
    tokens it tried are among those reached, in order; and after a reply
    that ends the loop the last token reached is the last one tried. *)
Lemma redeem_loop_token code d snapshot :
  forall payment_required response tok self w tok' r self' w' new,
    (forall k v, dict_get k (tokens self) = Some v -> dict_get k d = Some v) ->
    redeem_loop env code snapshot payment_required response tok self w
    = (Ok (tok', r), self', w') ->
    sent w' = sent w ++ new ->
    (new = [] -> r = response)
    /\ exists seen later,
        seen = reached env d (List.length (sent w)) snapshot payment_required
                 new
        /\ snapshot = seen ++ later
        /\ tok' = match last seen with Some t => Some t | None => tok end
        /\ sublist (List.map authorization new) seen
        /\ (new <> [] -> terminal r ->
            exists req, last new = Some req /\ tok' = Some (authorization req)).
Proof.
  unfold terminal.
  induction snapshot as [|token rest IH];
    intros payment_required response tok self w tok' r self' w' new Hd H Hs.
  - injection H as <- <- <- <-. apply new_nil in Hs. subst new.
    split; [reflexivity|]. exists [], [].
    repeat split; [constructor | tauto].
  - loop_cases H.
    all: try discriminate H.
    (* skipped *)
    1: { destruct (IH _ _ _ _ _ _ _ _ _ _ Hd H Hs)
           as (Hr0 & seen & later & Hseen & -> & -> & Hsub & Hlast).
         split; [exact Hr0|]. exists (token :: seen), later.
         rewrite (reached_skip _ _ _ _ _ _ _ (Hd _ _ Hget) Hskip), <- Hseen.
         rewrite last_cons. repeat split; auto;
           solve [now destruct (last seen) | now apply sublist_cons]. }
    (* backoff *)
    1: { injection H as <- <- <- <-. apply new_nil in Hs. subst new.
         split; [reflexivity|]. exists [token], rest.
         rewrite (reached_blocked _ _ _ _ _ _ (Hd _ _ Hget) Hskip).
         repeat split; [repeat constructor | intros Hn; now contradiction Hn]. }
    (* the loop goes on *)
    all: try (
      destruct (sent_after_attempt _ _ _ _ Hs (redeem_loop_extends _ _ _ _ _ _ _ _ _ _ H))
        as (new' & -> & Hs');
      assert (Hd' : forall ms r0 k v,
                 dict_get k (tokens (without_token token
                                       (recorded code r0 ms self))) = Some v ->
                 dict_get k d = Some v)
        by (intros ms r0 k v Hk; apply Hd;
            exact (dict_get_del_Some _ _ _ _ Hk));
      assert (Hd1 : forall ms r0 k v,
                 dict_get k (tokens (recorded code r0 ms self)) = Some v ->
                 dict_get k d = Some v)
        by (intros ms r0; exact Hd);
      first [ destruct (IH _ _ _ _ _ _ _ _ _ _ (Hd1 _ _) H Hs')
                as (Hr0 & seen & later & Hseen & -> & -> & Hsub & Hlast)
            | destruct (IH _ _ _ _ _ _ _ _ _ _ (Hd' _ _) H Hs')
                as (Hr0 & seen & later & Hseen & -> & -> & Hsub & Hlast) ];
      cbn [attempted sent] in Hseen; rewrite length_snoc in Hseen;
      split; [discriminate|]; exists (token :: seen), later;
      rewrite (reached_tried _ _ _ _ _ _ _ _ _ (Hd _ _ Hget) Hskip
                 (outcome_at_reply _ _ _ Hpost)), Hr;
      cbn [is_terminal]; rewrite <- Hseen;
      rewrite last_cons; split; [reflexivity|]; split; [reflexivity|];
      split; [now destruct (last seen)|];
      split; [now apply sublist_skip|];
      intros _ Hterm; destruct new' as [|req' new'];
      [ specialize (Hr0 eq_refl); subst r;
        destruct Hterm as [?|[?|[?|?]]]; discriminate
      | destruct (Hlast ltac:(discriminate) Hterm) as (req & Hl & Ht);
        exists req; split; [rewrite last_cons, Hl; reflexivity | exact Ht] ]).
    (* an attempt that ends the loop *)
    all: injection H as <- <- <- <-; apply new_single in Hs; subst new;
      (split; [discriminate|]); exists [token], rest;
      rewrite (reached_tried _ _ _ _ _ _ _ _ _ (Hd _ _ Hget) Hskip
                 (outcome_at_reply _ _ _ Hpost)), Hr;
      cbn [is_terminal];
      (split; [reflexivity|]); (split; [reflexivity|]); (split; [reflexivity|]);
      (split; [repeat constructor|]); intros _ _; eexists; split; reflexivity.
Qed.

Lemma dict_keys_get {V} (k : string) (d : list (string * V)) :
  In k (dict_keys d) -> exists v, dict_get k d = Some v.
Proof.
  induction d as [|[k' v'] d IH]; cbn; [tauto|].
  destruct (String.eqb_spec k' k); [eauto|]. intros [?|?]; [tauto | auto].
Qed.

Lemma is_number_compares now self :
  is_number (rate_delay (rate_limits self)) = true ->
  exists b, backoff_active now self = Some b.
Proof.
  unfold backoff_active. destruct (rate_delay (rate_limits self));
    cbn; try discriminate; eauto.
Qed.

Lemma backoff_raises now self :
  backoff_active now self = None <->
  is_number (rate_delay (rate_limits self)) = false.
Proof.
  unfold backoff_active. destruct (rate_delay (rate_limits self));
    cbn; split; congruence.
Qed.

(** The loop returns when the server answers, the stored delay is a number
    and the tokens of the snapshot are distinct keys of the token
    dictionary. *)
Lemma redeem_loop_returns code snapshot :
  answers env -> NoDup snapshot ->
  forall payment_required response tok self w,
    is_number (rate_delay (rate_limits self)) = true ->
    (forall t, In t snapshot -> In t (dict_keys (tokens self))) ->
    exists tok' r self' w',
      redeem_loop env code snapshot payment_required response tok self w
      = (Ok (tok', r), self', w').
Proof.
  intros Hans. induction snapshot as [|token rest IH];
    intros Hnd payment_required response tok self w Hnum Hin.
  - cbn. eauto.
  - apply NoDup_cons in Hnd as [Hnotin Hnd]. specialize (IH Hnd).
    assert (Hrest : forall t, In t rest -> In t (dict_keys (tokens self)))
      by (intros t Ht; apply Hin; now right).
    assert (Hdel : forall ms r t, In t rest ->
              In t (dict_keys (tokens (without_token token
                                         (recorded code r ms self))))).
    { intros ms r t Ht. cbn. apply dict_keys_del. split; [auto|].
      intros ->. apply Hnotin. now apply list_elem_of_In. }
    destruct (dict_keys_get token (tokens self)) as [payment_id Hget];
      [apply Hin; now left|].
    rewrite redeem_loop_cons, Hget.
    destruct (payment_required && negb (truthy payment_id)); [now apply IH|].
    destruct (is_number_compares (time_at env (ticks w)) self Hnum)
      as [[|] ->]; [eauto|]. cbv zeta.
    destruct (Hans (List.length (sent w)) (mkRequest code token payment_id))
      as (reply & -> & Hjson).
    destruct (handle_errors (text reply)); eauto.
    destruct (Hjson eq_refl) as [delay ->]. eauto.
Qed.

(** C9, as the code has it. A call on a code that is not cached returns
    when the server answers, the stored delay is a number and the token
    dictionary has distinct keys.  When it returns, the token returned is
    the last token the loop reached, tried, passed over for want of a
    payment source or blocked by the backoff, as [reached] reads it off the
    requests sent, and the outcome is the classification of the last reply.
    The tokens reached are the first keys of the dictionary and the tokens
    tried are among them; the token returned is the one of the last request
    when the outcome is [CLAIMED], [ALREADY_CLAIMED] or [INVALID_GIFT], or
    [RATE_LIMITED] after a request.  When nothing was sent the outcome is
    [RATE_LIMITED], and when the token dictionary is empty the token is
    [None]. *)
Theorem redeem_code_returns_last_reached code self w :
  cache self !! code = None ->
  (answers env -> NoDup (dict_keys (tokens self)) ->
   is_number (rate_delay (rate_limits self)) = true ->
   exists tok r self' w',
     redeem_code env code self w = (Ok (tok, r), self', w'))
  /\ (forall tok r self' w',
        redeem_code env code self w = (Ok (tok, r), self', w') ->
        exists new later,
          sent w' = sent w ++ new
          /\ tok = last (reached env (tokens self) (List.length (sent w))
                           (dict_keys (tokens self)) false new)
          /\ dict_keys (tokens self)
             = reached env (tokens self) (List.length (sent w))
                 (dict_keys (tokens self)) false new ++ later
          /\ sublist (List.map authorization new)
               (reached env (tokens self) (List.length (sent w))
                  (dict_keys (tokens self)) false new)
          /\ r = last_outcome env (List.length (sent w)) new RATE_LIMITED
          /\ (new = [] -> r = RATE_LIMITED)
          /\ (tokens self = [] -> tok = None)
          /\ (r = CLAIMED \/ r = ALREADY_CLAIMED \/ r = INVALID_GIFT
              \/ (r = RATE_LIMITED /\ new <> []) ->
              exists req, last new = Some req /\ tok = Some (authorization req))).
Proof.
  intros Hc. split.
  - intros Hans Hnd Hnum. rewrite (redeem_code_fresh _ _ _ Hc).
    apply redeem_loop_returns; auto.
  - intros tok r self' w' H.
    destruct (redeem_code_spec _ _ _ _ _ _ Hc H) as (new & Hs & _ & _ & _ & Hok).
    rewrite (redeem_code_fresh _ _ _ Hc) in H.
    pose proof (fun Hd => redeem_loop_token _ (tokens self) _ _ _ _ _ _ _ _
                            _ _ _ Hd H Hs) as Htoken.
    destruct (Htoken (fun k v E => E))
      as (Hr0 & seen & later & Hseen & Hk & Ht & Hsub & Hlast).
    cbn [tokens] in Hk. subst seen.
    exists new, later.
    split; [exact Hs|].
    split; [rewrite Ht; now destruct (last (reached _ _ _ _ _ _))|].
    split; [exact Hk|].
    split; [exact Hsub|]. split; [exact (Hok _ _ eq_refl)|].
    split; [exact Hr0|]. split.
    + intros E. rewrite Ht, E. reflexivity.
    + intros Hterm. apply Hlast.
      * destruct Hterm as [->|[->|[->|[_ Hn]]]]; auto;
          intros ->; specialize (Hr0 eq_refl); discriminate.
      * unfold terminal. tauto.
Qed.

(** ** What a call changes, and what it leaves alone *)

Import Effects.

Lemma dropped_cons_not_verified n req reqs :
  outcome_at env n req = Some NOT_VERIFIED ->
  dropped env n (req :: reqs) = authorization req :: dropped env (S n) reqs.
Proof. cbn [dropped]. now intros ->. Qed.

Lemma dropped_cons_other n req reqs o :
  outcome_at env n req = o -> o <> Some NOT_VERIFIED ->
  dropped env n (req :: reqs) = dropped env (S n) reqs.
Proof.
  cbn [dropped]. intros -> Ho. destruct o as [[]|]; congruence.
Qed.

Lemma answered_cons_reply n req reqs reply :
  post_at env n req = Some reply ->
  answered env n (req :: reqs) = S (answered env (S n) reqs).
Proof. cbn [answered]. now intros ->. Qed.

(** The latency samples and the token dictionary after the loop. *)
Lemma redeem_loop_effects code snapshot :
  forall payment_required response tok self w res self' w' new,
    redeem_loop env code snapshot payment_required response tok self w
    = (res, self', w') ->
    sent w' = sent w ++ new ->
    (exists samples,
        data self' = data self ++ samples
        /\ List.length samples = answered env (List.length (sent w)) new)
    /\ tokens self'
       = dict_del_all (dropped env (List.length (sent w)) new) (tokens self)
    /\ (forall tok' r, res = Ok (tok', r) ->
          answered env (List.length (sent w)) new = List.length new).
Proof.
  induction snapshot as [|token rest IH];
    intros payment_required response tok self w res self' w' new H Hs.
  - injection H as <- <- <-. apply new_nil in Hs. subst new.
    split; [exists []; now rewrite app_nil_r|]. split; reflexivity.
  - loop_cases H.
    (* skipped *)
    1: exact (IH _ _ _ _ _ _ _ _ _ H Hs).
    (* nothing sent *)
    1, 15, 16: injection H as <- <- <-; apply new_nil in Hs; subst new;
      (split; [exists []; now rewrite app_nil_r|]); split; reflexivity.
    (* the request raised *)
    13: { injection H as <- <- <-. apply new_single in Hs. subst new.
          cbn [answered dropped]. unfold outcome_at. rewrite Hpost.
          split; [exists []; now rewrite app_nil_r|].
          split; [reflexivity | discriminate]. }
    (* the loop goes on *)
    all: try (
      destruct (sent_after_attempt _ _ _ _ Hs (redeem_loop_extends _ _ _ _ _ _ _ _ _ _ H))
        as (new' & -> & Hs');
      destruct (IH _ _ _ _ _ _ _ _ _ H Hs') as ((samples & Hd & Hn) & Ht & Hok);
      cbn [attempted sent recorded without_token data tokens] in Hd, Hn, Ht, Hok;
      rewrite length_snoc in Hn, Ht, Hok;
      rewrite (answered_cons_reply _ _ _ _ Hpost);
      split; [exists (latency env w :: samples);
              rewrite Hd, <- app_assoc; split; [reflexivity | cbn; now rewrite Hn]|];
      split; [|intros ? ? E; cbn [List.length]; now rewrite (Hok _ _ E)];
      first
        [ rewrite (dropped_cons_not_verified _ _ _
                     (eq_trans (outcome_at_reply _ _ _ Hpost) (f_equal Some Hr)));
          exact Ht
        | rewrite (dropped_cons_other _ _ _ _
                     (eq_trans (outcome_at_reply _ _ _ Hpost) (f_equal Some Hr)))
            by discriminate;
          exact Ht ]).
    (* an attempt that ends the loop *)
    all: injection H as <- <- <-; apply new_single in Hs; subst new;
      rewrite (answered_cons_reply _ _ _ _ Hpost);
      rewrite (dropped_cons_other _ _ _ _
                 (eq_trans (outcome_at_reply _ _ _ Hpost) (f_equal Some Hr)))
        by discriminate;
      (split; [exists [latency env w]; split; reflexivity|]);
      split; reflexivity.
Qed.

Lemma redeem_code_cases code self w res self' w' :
  redeem_code env code self w = (res, self', w') ->
  (is_Some (cache self !! code) /\ res = Ok (None, IN_CACHE)
   /\ self' = self /\ w' = w)
  \/ (cache self !! code = None
      /\ redeem_loop env code (dict_keys (tokens self)) false RATE_LIMITED None
           {| tokens := tokens self;
              cache := <[code := RATE_LIMITED]> (cache self);
              rate_limits := rate_limits self; data := data self |} w
         = (res, self', w')).
Proof.
  intros H. destruct (cache self !! code) as [r|] eqn:Hc.
  - left. rewrite redeem_code_cached in H by (rewrite Hc; eauto).
    injection H as <- <- <-. eauto.
  - right. rewrite (redeem_code_fresh _ _ _ Hc) in H. auto.
Qed.

Lemma redeem_code_extends code self w res self' w' :
  redeem_code env code self w = (res, self', w') ->
  exists new, sent w' = sent w ++ new.
Proof.
  intros H. apply redeem_code_any in H as (new & Hs & _). eauto.
Qed.

Lemma dict_del_sublist {V} (k : string) (d : list (string * V)) :
  sublist (dict_del k d) d.
Proof.
  unfold dict_del. induction d as [|kv d IH]; [constructor|]. cbn [List.filter].
  destruct (negb _); [now apply sublist_skip | now apply sublist_cons].
Qed.

Lemma dict_del_all_sublist {V} (ks : list string) :
  forall d : list (string * V), sublist (dict_del_all ks d) d.
Proof.
  unfold dict_del_all. induction ks as [|k ks IH]; intros d; [reflexivity|].
  cbn [fold_left]. etransitivity; [apply IH|]. apply dict_del_sublist.
Qed.

(** X10. A call appends one latency sample per request that got a reply
    and leaves the earlier samples as they were; when the call returns,
    that is one sample per request sent. *)
Theorem redeem_code_latency_samples code self w res self' w' :
  redeem_code env code self w = (res, self', w') ->
  exists new samples,
    sent w' = sent w ++ new
    /\ data self' = data self ++ samples
    /\ List.length samples = answered env (List.length (sent w)) new
    /\ (forall tok r, res = Ok (tok, r) -> List.length samples = List.length new).
Proof.
  intros H. destruct (redeem_code_extends _ _ _ _ _ _ H) as [new Hs].
  apply redeem_code_cases in H as [(_ & -> & -> & ->)|[_ H]].
  - apply new_nil in Hs. subst new. exists [], []. rewrite !app_nil_r. auto.
  - destruct (redeem_loop_effects _ _ _ _ _ _ _ _ _ _ _ H Hs)
      as ((samples & Hd & Hn) & _ & Hok).
    exists new, samples. repeat split; auto.
    intros tok r E. rewrite Hn. exact (Hok _ _ E).
Qed.

(** X11. The token dictionary after a call is the one before with the
    tokens of the requests answered [NOT_VERIFIED] deleted, and nothing else
    changed: the entries left keep their order and their payment source. *)
Theorem redeem_code_token_pool code self w res self' w' :
  redeem_code env code self w = (res, self', w') ->
  exists new,
    sent w' = sent w ++ new
    /\ tokens self'
       = dict_del_all (dropped env (List.length (sent w)) new) (tokens self)
    /\ sublist (tokens self') (tokens self).
Proof.
  intros H. destruct (redeem_code_extends _ _ _ _ _ _ H) as [new Hs].
  exists new. split; [exact Hs|].
  assert (Ht : tokens self'
               = dict_del_all (dropped env (List.length (sent w)) new)
                   (tokens self)).
  { apply redeem_code_cases in H as [(_ & -> & -> & ->)|[_ H]].
    - apply new_nil in Hs. subst new. reflexivity.
    - exact (proj1 (proj2 (redeem_loop_effects _ _ _ _ _ _ _ _ _ _ _ H Hs))). }
  split; [exact Ht|]. rewrite Ht. apply dict_del_all_sublist.
Qed.

(** The output and the rate-limit state are left alone by a loop that does
    not return [CLAIMED], respectively [RATE_LIMITED]. *)
Lemma redeem_loop_frame code snapshot :
  forall payment_required response tok self w res self' w',
    redeem_loop env code snapshot payment_required response tok self w
    = (res, self', w') ->
    (stdout w' = stdout w \/ exists tok', res = Ok (tok', CLAIMED))
    /\ (rate_limits self' = rate_limits self
        \/ exists tok', res = Ok (tok', RATE_LIMITED)).
Proof.
  induction snapshot as [|token rest IH];
    intros payment_required response tok self w res self' w' H.
  - injection H as <- <- <-. auto.
  - loop_cases H.
    all: try (injection H as <- <- <-; cbn; eauto).
    all: apply IH in H; exact H.
Qed.

(** A loop that returns [CLAIMED] after a request printed the body of the
    last reply. *)
Lemma redeem_loop_claimed code snapshot :
  forall payment_required response tok self w tok' self' w',
    redeem_loop env code snapshot payment_required response tok self w
    = (Ok (tok', CLAIMED), self', w') ->
    (sent w' = sent w /\ response = CLAIMED)
    \/ exists earlier req reply,
        sent w' = earlier ++ [req]
        /\ post_at env (List.length earlier) req = Some reply
        /\ handle_errors (text reply) = CLAIMED
        /\ stdout w' = stdout w ++ [text reply].
Proof.
  induction snapshot as [|token rest IH];
    intros payment_required response tok self w tok' self' w' H.
  - injection H as _ <- <- <-. left. auto.
  - loop_cases H.
    all: try discriminate H.
    1: exact (IH _ _ _ _ _ _ _ _ H).
    1: injection H as _ <- <- <-; left; auto.
    5: { injection H as _ <- <-. right.
         exists (sent w), (mkRequest code token payment_id), reply.
         repeat split; auto. }
    all: apply IH in H as [[Hs Hr']|H]; [discriminate Hr' | right; exact H].
Qed.

(** X12. The body of a reply is printed when, and only when, the call
    returns [CLAIMED], and it is the body of the reply to the last request;
    a call that returns anything else or raises prints nothing. *)
Theorem redeem_code_prints_claimed_body code self w res self' w' :
  redeem_code env code self w = (res, self', w') ->
  ((forall tok, res <> Ok (tok, CLAIMED)) -> stdout w' = stdout w)
  /\ (forall tok, res = Ok (tok, CLAIMED) ->
        exists earlier req reply,
          sent w' = earlier ++ [req]
          /\ post_at env (List.length earlier) req = Some reply
          /\ handle_errors (text reply) = CLAIMED
          /\ stdout w' = stdout w ++ [text reply]).
Proof.
  intros H. apply redeem_code_cases in H as [(_ & -> & -> & ->)|[_ H]].
  - split; [reflexivity | discriminate].
  - split.
    + intros Hn. apply redeem_loop_frame in H as [[Ho|[tok' E]] _];
        [exact Ho | now destruct (Hn tok')].
    + intros tok ->. apply redeem_loop_claimed in H as [[_ E]|H];
        [discriminate E | exact H].
Qed.

Lemma redeem_loop_silent code snapshot :
  forall payment_required response tok self w res self' w',
    redeem_loop env code snapshot payment_required response tok self w
    = (res, self', w') ->
    sent w' = sent w ->
    rate_limits self' = rate_limits self.
Proof.
  induction snapshot as [|token rest IH];
    intros payment_required response tok self w res self' w' H Hs.
  - injection H as <- <- <-. reflexivity.
  - assert (Hs0 : sent w' = sent w ++ []) by now rewrite app_nil_r.
    loop_cases H.
    1: exact (IH _ _ _ _ _ _ _ _ H Hs).
    1, 15, 16: injection H as <- <- <-; reflexivity.
    all: try (
      destruct (sent_after_attempt _ _ _ _ Hs0 (redeem_loop_extends _ _ _ _ _ _ _ _ _ _ H))
        as (new' & Hnil & _); discriminate Hnil).
    all: injection H as <- <- <-; cbn in Hs;
      rewrite <- (app_nil_r (sent w)) in Hs at 2;
      apply app_inv_head in Hs; discriminate Hs.
Qed.

(** X13. The rate-limit state is only written by a call that returns
    [RATE_LIMITED] after a request: a call that returns another outcome,
    answers from the cache, sends nothing or raises leaves it as it was. *)
Theorem redeem_code_keeps_rate_limits code self w res self' w' :
  redeem_code env code self w = (res, self', w') ->
  (forall tok, res <> Ok (tok, RATE_LIMITED)) \/ sent w' = sent w ->
  rate_limits self' = rate_limits self.
Proof.
  intros H Hn. apply redeem_code_cases in H as [(_ & -> & -> & ->)|[_ H]];
    [reflexivity|].
  destruct Hn as [Hn|Hs].
  - destruct (redeem_loop_frame _ _ _ _ _ _ _ _ _ _ H) as [_ [Hr|[tok' ->]]];
      [exact Hr | now destruct (Hn tok')].
  - exact (redeem_loop_silent _ _ _ _ _ _ _ _ _ _ H Hs).
Qed.

(** ** The order of the requests of a call *)

(** No request follows one whose reply ends the loop or that raised, and
    the tokens of the requests follow the snapshot. *)
Lemma redeem_loop_order code snapshot :
  forall payment_required response tok self w res self' w' new,
    redeem_loop env code snapshot payment_required response tok self w
    = (res, self', w') ->
    sent w' = sent w ++ new ->
    sublist (List.map authorization new) snapshot
    /\ Forall (fun req =>
                 gift_code req = code
                 /\ dict_get (authorization req) (tokens self)
                    = Some (payment_source_id req)) new
    /\ (forall before req after,
          new = before ++ req :: after -> after <> [] ->
          exists r,
            outcome_at env (List.length (sent w) + List.length before) req
              = Some r
            /\ ~ terminal r).
Proof.
  unfold terminal.
  induction snapshot as [|token rest IH];
    intros payment_required response tok self w res self' w' new H Hs.
  - injection H as <- <- <-. apply new_nil in Hs. subst new.
    repeat split; [constructor | constructor |].
    intros [|] ? ? Hdec; discriminate Hdec.
  - loop_cases H.
    (* skipped *)
    1: { destruct (IH _ _ _ _ _ _ _ _ _ H Hs) as (Hsub & Hall & Hlast).
         repeat split; [now apply sublist_cons | exact Hall | exact Hlast]. }
    (* nothing sent *)
    1, 15, 16: injection H as <- <- <-; apply new_nil in Hs; subst new;
      repeat split; [apply sublist_nil_l | constructor |];
      intros [|] ? ? Hdec; discriminate Hdec.
    (* the request raised *)
    13: { injection H as <- <- <-. apply new_single in Hs. subst new.
          repeat split.
          - cbn. apply sublist_skip, sublist_nil_l.
          - repeat constructor. exact Hget.
          - intros [|b [|]] ? ? Hdec Hne; try discriminate Hdec.
            injection Hdec as <- <-. now contradiction Hne. }
    (* the loop goes on *)
    all: try (
      destruct (sent_after_attempt _ _ _ _ Hs (redeem_loop_extends _ _ _ _ _ _ _ _ _ _ H))
        as (new' & -> & Hs');
      destruct (IH _ _ _ _ _ _ _ _ _ H Hs') as (Hsub & Hall & Hlast);
      cbn [attempted sent recorded without_token tokens] in Hall, Hlast;
      rewrite length_snoc in Hlast;
      split; [cbn; now apply sublist_skip|];
      split;
      [ constructor; [split; [reflexivity | exact Hget]|];
        eapply Forall_impl; [exact Hall|]; cbn; intros req' [Hg Hd];
        split; [exact Hg|]; first [exact Hd | exact (dict_get_del_Some _ _ _ _ Hd)]
      | intros [|b before] req after Hdec Hne;
        [ injection Hdec as <- <-; rewrite Nat.add_0_r;
          rewrite (outcome_at_reply _ _ _ Hpost), Hr;
          eexists; split; [reflexivity|];
          intros [?|[?|[?|?]]]; discriminate
        | injection Hdec as <- ->;
          destruct (Hlast _ _ _ eq_refl Hne) as (r & Ho & Hnt);
          exists r; split; [|exact Hnt];
          cbn [List.length]; rewrite Nat.add_succ_r; exact Ho ] ]).
    (* an attempt that ends the loop *)
    all: injection H as <- <- <-; apply new_single in Hs; subst new;
      (split; [cbn; apply sublist_skip, sublist_nil_l|]);
      (split; [repeat constructor; exact Hget|]);
      intros [|b [|]] ? ? Hdec Hne; try discriminate Hdec;
      injection Hdec as <- <-; now contradiction Hne.
Qed.

Lemma redeem_code_order code self w res self' w' new :
  redeem_code env code self w = (res, self', w') ->
  sent w' = sent w ++ new ->
  sublist (List.map authorization new) (dict_keys (tokens self))
  /\ Forall (fun req =>
               gift_code req = code
               /\ dict_get (authorization req) (tokens self)
                  = Some (payment_source_id req)) new
  /\ (forall before req after,
        new = before ++ req :: after -> after <> [] ->
        exists r,
          outcome_at env (List.length (sent w) + List.length before) req
            = Some r
          /\ ~ terminal r).
Proof.
  intros H Hs. apply redeem_code_cases in H as [(_ & -> & -> & ->)|[_ H]].
  - apply new_nil in Hs. subst new.
    repeat split; [apply sublist_nil_l | constructor |].
    intros [|] ? ? Hdec; discriminate Hdec.
  - exact (redeem_loop_order _ _ _ _ _ _ _ _ _ _ _ H Hs).
Qed.

(** X14. A request that raised, or whose reply is classified [CLAIMED],
    [ALREADY_CLAIMED], [INVALID_GIFT] or [RATE_LIMITED], is the last request
    of its call. *)
Theorem terminal_reply_ends_call code self w res self' w' before req after :
  redeem_code env code self w = (res, self', w') ->
  sent w' = sent w ++ before ++ req :: after ->
  match outcome_at env (List.length (sent w) + List.length before) req with
  | Some r => terminal r
  | None => True
  end ->
  after = [].
Proof.
  intros H Hs Hout.
  destruct (redeem_code_order _ _ _ _ _ _ _ H Hs) as (_ & _ & Hlast).
  destruct after as [|req' after]; [reflexivity|]. exfalso.
  destruct (Hlast before req (req' :: after) eq_refl ltac:(discriminate))
    as (r & Ho & Hnt).
  rewrite Ho in Hout. contradiction.
Qed.

(** X15. Every request of a call is for the code of the call and carries,
    with a token of the dictionary, the payment source stored for that token
    when the call began. *)
Theorem requests_carry_stored_payment code self w res self' w' new :
  redeem_code env code self w = (res, self', w') ->
  sent w' = sent w ++ new ->
  Forall (fun req =>
            url req
            = "https://discordapp.com/api/v8/entitlements/gift-codes/"
                +:+ code +:+ "/redeem"
            /\ dict_get (authorization req) (tokens self)
               = Some (payment_source_id req)) new.
Proof.
  intros H Hs.
  destruct (redeem_code_order _ _ _ _ _ _ _ H Hs) as (_ & Hall & _).
  eapply Forall_impl; [exact Hall|]. cbn. intros req [<- Hd].
  split; [reflexivity | exact Hd].
Qed.

(** X16. The tokens tried by a call are tokens of the dictionary, tried in
    the order of the dictionary and, the keys being distinct, at most once
    each; this holds also when the call raises. *)
Theorem tokens_tried_in_order code self w res self' w' new :
  redeem_code env code self w = (res, self', w') ->
  sent w' = sent w ++ new ->
  sublist (List.map authorization new) (dict_keys (tokens self))
  /\ (NoDup (dict_keys (tokens self)) -> NoDup (List.map authorization new)).
Proof.
  intros H Hs.
  destruct (redeem_code_order _ _ _ _ _ _ _ H Hs) as (Hsub & _).
  split; [exact Hsub|]. intros Hnd. eapply sublist_NoDup; eassumption.
Qed.

(** ** When a call raises *)

Lemma redeem_loop_raises code snapshot :
  NoDup snapshot ->
  forall payment_required response tok self w e self' w',
    (forall t, In t snapshot -> In t (dict_keys (tokens self))) ->
    redeem_loop env code snapshot payment_required response tok self w
    = (Raise e, self', w') ->
    (e = TypeError /\ sent w' = sent w
     /\ is_number (rate_delay (rate_limits self)) = false)
    \/ exists earlier req,
        sent w' = earlier ++ [req]
        /\ (List.length (sent w) <= List.length earlier)%nat
        /\ ((e = ClientError /\ post_at env (List.length earlier) req = None)
            \/ exists reply,
                post_at env (List.length earlier) req = Some reply
                /\ handle_errors (text reply) = RATE_LIMITED
                /\ ((e = JSONDecodeError /\ json reply = None)
                    \/ (e = TypeError /\ json reply = Some NotObject)
                    \/ (e = KeyError "retry_after"
                        /\ json reply = Some (Object None)))).
Proof.
  induction snapshot as [|token rest IH];
    intros Hnd payment_required response tok self w e self' w' Hin H.
  - discriminate H.
  - apply NoDup_cons in Hnd as [Hnotin Hnd]. specialize (IH Hnd).
    assert (Hrest : forall t, In t rest -> In t (dict_keys (tokens self)))
      by (intros t Ht; apply Hin; now right).
    assert (Hdel : forall ms r t, In t rest ->
              In t (dict_keys (tokens (without_token token
                                         (recorded code r ms self))))).
    { intros ms r t Ht. cbn. apply dict_keys_del. split; [auto|].
      intros ->. apply Hnotin. now apply list_elem_of_In. }
    assert (Hgo : forall pr r self1 w1,
              (forall t, In t rest -> In t (dict_keys (tokens self1))) ->
              List.length (sent w1) = S (List.length (sent w)) ->
              is_number (rate_delay (rate_limits self1)) = true ->
              redeem_loop env code rest pr r (Some token) self1 w1
              = (Raise e, self', w') ->
              exists earlier req,
                sent w' = earlier ++ [req]
                /\ (List.length (sent w) <= List.length earlier)%nat
                /\ ((e = ClientError /\ post_at env (List.length earlier) req = None)
                    \/ exists reply,
                        post_at env (List.length earlier) req = Some reply
                        /\ handle_errors (text reply) = RATE_LIMITED
                        /\ ((e = JSONDecodeError /\ json reply = None)
                            \/ (e = TypeError /\ json reply = Some NotObject)
                            \/ (e = KeyError "retry_after"
                                /\ json reply = Some (Object None))))).
    { intros pr r self1 w1 Hin1 Hs1 Hnum H1.
      destruct (IH _ _ _ _ _ _ _ _ Hin1 H1)
        as [(_ & _ & Hn)|(earlier & req & Hs & Hl & Hc)]; [congruence|].
      exists earlier, req. split; [exact Hs|]. split; [|exact Hc].
      rewrite Hs1 in Hl. lia. }
    assert (Hnum : forall now, backoff_active now self = Some false ->
                   is_number (rate_delay (rate_limits self)) = true).
    { intros now Hb. destruct (is_number (rate_delay (rate_limits self))) eqn:E;
        [reflexivity|].
      apply (backoff_raises now) in E. congruence. }
    loop_cases H.
    all: try discriminate H.
    (* skipped *)
    1: exact (IH _ _ _ _ _ _ _ _ Hrest H).
    (* a rate-limited reply without usable JSON *)
    1, 2, 3: injection H as <- <- <-; right;
      exists (sent w), (mkRequest code token payment_id);
      (split; [reflexivity|]); (split; [lia|]); right; exists reply; auto 6.
    (* the request raised *)
    6: { injection H as <- <- <-. right.
         exists (sent w), (mkRequest code token payment_id).
         split; [reflexivity|]. split; [lia|]. left. auto. }
    (* the backoff test raised *)
    6: { injection H as <- <- <-. left.
         split; [reflexivity|]. split; [reflexivity|].
         now apply (backoff_raises (time_at env (ticks w))). }
    (* the token is not in the dictionary *)
    6: { destruct (dict_keys_get token (tokens self)) as [v Hv];
           [apply Hin; now left | congruence]. }
    (* the loop goes on *)
    all: right; refine (Hgo _ _ _ _ _ _ _ H);
      [ first [exact Hrest | apply Hdel] | cbn; apply length_snoc
      | exact (Hnum _ Hback) ].
Qed.

(** X17. With distinct keys in the token dictionary, a call raises only in
    one of two places.  Either at its first backoff test, before any
    request, with [TypeError]: the stored delay is not a number, as a
    rate-limited reply leaves it whose [retry_after] is [null] or a string.
    Or at its last request: the request itself raised ([ClientError]), or
    its reply is classified [RATE_LIMITED] and its body is not JSON
    ([JSONDecodeError]), is not an object ([TypeError]) or has no
    [retry_after] ([KeyError]). *)
Theorem redeem_code_raises_only code self w e self' w' :
  NoDup (dict_keys (tokens self)) ->
  redeem_code env code self w = (Raise e, self', w') ->
  (e = TypeError /\ sent w' = sent w
   /\ is_number (rate_delay (rate_limits self)) = false)
  \/ exists earlier req,
      sent w' = earlier ++ [req]
      /\ (List.length (sent w) <= List.length earlier)%nat
      /\ ((e = ClientError /\ post_at env (List.length earlier) req = None)
          \/ exists reply,
              post_at env (List.length earlier) req = Some reply
              /\ handle_errors (text reply) = RATE_LIMITED
              /\ ((e = JSONDecodeError /\ json reply = None)
                  \/ (e = TypeError /\ json reply = Some NotObject)
                  \/ (e = KeyError "retry_after"
                      /\ json reply = Some (Object None)))).
Proof.
  intros Hnd H. apply redeem_code_cases in H as [(_ & E & _)|[_ H]];
    [discriminate E|].
  eapply redeem_loop_raises in H; [exact H | exact Hnd | auto].
Qed.

(** X22. A call on a code that is not cached, made with a token in the
    dictionary while the stored delay is not a number, raises [TypeError] at
    its first backoff test: one clock reading is made, nothing is sent, and
    the code is cached with [RATE_LIMITED] all the same; the tokens, the
    rate-limit state and the latency samples are as they were, so that
    every later call on a new code raises likewise. *)
Theorem delay_not_a_number_raises code self w :
  cache self !! code = None ->
  tokens self <> [] ->
  is_number (rate_delay (rate_limits self)) = false ->
  exists self',
    redeem_code env code self w = (Raise TypeError, self', tick 1 w)
    /\ cache self' = <[code := RATE_LIMITED]> (cache self)
    /\ tokens self' = tokens self
    /\ rate_limits self' = rate_limits self
    /\ data self' = data self.
Proof.
  intros Hc Hne Hnum. rewrite (redeem_code_fresh _ _ _ Hc).
  destruct (dict_keys (tokens self)) as [|token rest] eqn:Hk.
  - destruct (tokens self); [now contradiction Hne | discriminate Hk].
  - destruct (dict_get_head _ _ _ Hk) as [pid Hget].
    rewrite redeem_loop_cons. cbn [tokens]. rewrite Hget. cbn [andb].
    apply (backoff_raises (time_at env (ticks w))) in Hnum.
    unfold backoff_active in *. cbn [rate_limits]. rewrite Hnum.
    eexists. split; [reflexivity|]. cbn. auto.
Qed.

(** ** A refusal for every token *)

Lemma redeem_loop_refused code (r0 : Responses) token rest response tok self w
    payment_id reply :
  r0 = ACCESS_DENIED \/ r0 = ALREADY_PURCHASED ->
  dict_get token (tokens self) = Some payment_id ->
  backoff_active (time_at env (ticks w)) self = Some false ->
  post_at env (List.length (sent w)) (mkRequest code token payment_id)
    = Some reply ->
  handle_errors (text reply) = r0 ->
  redeem_loop env code (token :: rest) false response tok self w
  = redeem_loop env code rest false r0 (Some token)
      (recorded code r0 (latency env w) self)
      (attempted (mkRequest code token payment_id) w).
Proof.
  intros Hr0 Hget Hback Hpost Hr.
  rewrite redeem_loop_cons, Hget. cbn [andb]. rewrite Hback. cbv zeta.
  rewrite Hpost, Hr. destruct Hr0 as [-> | ->]; reflexivity.
Qed.

Lemma redeem_loop_sweep code (r0 : Responses) snapshot :
  r0 = ACCESS_DENIED \/ r0 = ALREADY_PURCHASED ->
  (forall n req, exists reply,
      post_at env n req = Some reply /\ handle_errors (text reply) = r0) ->
  forall response tok self w,
    (forall n, backoff_active (time_at env n) self = Some false) ->
    (forall t, In t snapshot -> In t (dict_keys (tokens self))) ->
    exists self' w' new,
      redeem_loop env code snapshot false response tok self w
      = (Ok (match last snapshot with Some t => Some t | None => tok end,
             match snapshot with [] => response | _ :: _ => r0 end),
         self', w')
      /\ sent w' = sent w ++ new
      /\ List.map authorization new = snapshot
      /\ tokens self' = tokens self.
Proof.
  intros Hr0 Hans. induction snapshot as [|token rest IH];
    intros response tok self w Hback Hin.
  - exists self, w, []. rewrite app_nil_r. cbn. auto.
  - destruct (dict_keys_get token (tokens self)) as [payment_id Hget];
      [apply Hin; now left|].
    destruct (Hans (List.length (sent w)) (mkRequest code token payment_id))
      as (reply & Hpost & Hr).
    destruct (IH r0 (Some token) (recorded code r0 (latency env w) self)
                (attempted (mkRequest code token payment_id) w))
      as (self' & w' & new & H & Hs & Hm & Ht).
    { intros n. exact (Hback n). }
    { intros t Ht. apply Hin. now right. }
    exists self', w', (mkRequest code token payment_id :: new).
    rewrite (redeem_loop_refused _ _ _ _ _ _ _ _ _ _ Hr0 Hget (Hback _) Hpost Hr).
    rewrite H, last_cons.
    split; [|split; [|split]].
    + destruct rest as [|t2 rest]; [reflexivity|]. now destruct (last (t2 :: rest)).
    + rewrite Hs. cbn. now rewrite <- app_assoc.
    + cbn. now rewrite Hm.
    + exact Ht.
Qed.

(** X18. When the server answers every request with the same refusal,
    [ACCESS_DENIED] or [ALREADY_PURCHASED], and no backoff is active, a call
    on a code that is not cached tries every token of the dictionary once,
    in order, returns the last token with that outcome, and deletes no
    token. *)
Theorem refused_code_tries_every_token code (r0 : Responses) self w :
  r0 = ACCESS_DENIED \/ r0 = ALREADY_PURCHASED ->
  (forall n req, exists reply,
      post_at env n req = Some reply /\ handle_errors (text reply) = r0) ->
  (forall n, backoff_active (time_at env n) self = Some false) ->
  cache self !! code = None ->
  exists self' w' new,
    redeem_code env code self w
    = (Ok (last (dict_keys (tokens self)),
           match tokens self with [] => RATE_LIMITED | _ :: _ => r0 end),
       self', w')
    /\ sent w' = sent w ++ new
    /\ List.map authorization new = dict_keys (tokens self)
    /\ tokens self' = tokens self.
Proof.
  intros Hr0 Hans Hback Hc. rewrite (redeem_code_fresh _ _ _ Hc).
  destruct (redeem_loop_sweep code r0 (dict_keys (tokens self)) Hr0 Hans
              RATE_LIMITED None
              {| tokens := tokens self;
                 cache := <[code := RATE_LIMITED]> (cache self);
                 rate_limits := rate_limits self; data := data self |} w)
    as (self' & w' & new & H & Hs & Hm & Ht); [exact Hback | auto |].
  exists self', w', new. rewrite H. split; [|auto].
  replace (match last (dict_keys (tokens self)) with
           | Some t => Some t
           | None => None
           end) with (last (dict_keys (tokens self)))
    by (now destruct (last (dict_keys (tokens self)))).
  now destruct (tokens self).
Qed.

(** ** A new engine *)

Lemma redeem_loop_attempts code token rest payment_required response tok self w
    payment_id :
  dict_get token (tokens self) = Some payment_id ->
  payment_required && negb (truthy payment_id) = false ->
  backoff_active (time_at env (ticks w)) self = Some false ->
  exists res self' w' new,
    redeem_loop env code (token :: rest) payment_required response tok self w
    = (res, self', w')
    /\ sent w' = sent w ++ mkRequest code token payment_id :: new.
Proof.
  intros Hget Hskip Hback.
  destruct (redeem_loop env code (token :: rest) payment_required response tok
              self w) as [[res self'] w'] eqn:H.
  exists res, self', w'.
  assert (Hc : exists new,
            sent w' = sent w ++ mkRequest code token payment_id :: new);
    [|destruct Hc as [new Hn]; exists new; auto].
  rewrite redeem_loop_cons, Hget, Hskip, Hback in H. cbv zeta in H.
  destruct (post_at env _ _) as [reply|] eqn:Hpost;
    [|injection H as <- <- <-; exists []; reflexivity].
  destruct (handle_errors (text reply));
    [ destruct (json reply) as [[[delay|]|]|] | .. ];
    try (injection H as <- <- <-; exists []; reflexivity);
    apply redeem_loop_spec in H as (new & Hs & _);
    exists new; rewrite Hs; cbn; now rewrite <- app_assoc.
Qed.

(** X19. The first call of a new engine with a token: when the clock reads
    more than 0 the first request carries the first token of the dictionary
    and its payment source; when the clock reads 0 or less the call is
    blocked by the initial rate-limit state and sends nothing. *)
Theorem new_engine_first_call code token payment_id rest w :
  ((0 < time_at env (ticks w))%Q ->
   exists res self' w' new,
     redeem_code env code (init ((token, payment_id) :: rest)) w
     = (res, self', w')
     /\ sent w' = sent w ++ mkRequest code token payment_id :: new)
  /\ ((time_at env (ticks w) <= 0)%Q ->
      exists self',
        redeem_code env code (init ((token, payment_id) :: rest)) w
        = (Ok (Some token, RATE_LIMITED), self', tick 1 w)).
Proof.
  assert (Hc : cache (init ((token, payment_id) :: rest)) !! code = None)
    by apply lookup_empty.
  rewrite (redeem_code_fresh _ _ _ Hc). cbn [init tokens dict_keys List.map fst].
  split.
  - intros Hpos. apply redeem_loop_attempts.
    + cbn. now rewrite String.eqb_refl.
    + reflexivity.
    + apply (backoff_active_false _ _ 0); [reflexivity|]. cbn. lra.
  - intros Hneg. eexists. rewrite redeem_loop_cons. cbn [tokens dict_get].
    rewrite String.eqb_refl. cbn [andb].
    replace (backoff_active _ _) with (Some true); [reflexivity|].
    symmetry. apply (backoff_active_true _ _ 0); [reflexivity|]. cbn. lra.
Qed.

(** ** The keys of the cache *)

Lemma last_outcome_range n reqs r :
  r <> IN_CACHE -> last_outcome env n reqs r <> IN_CACHE.
Proof.
  revert n r. induction reqs as [|req reqs IH]; intros n r Hr; [exact Hr|].
  cbn [last_outcome]. apply IH. unfold outcome_at.
  destruct (post_at env n req) as [r0|]; [|exact Hr]; intros E; pose proof (handle_errors_range (text r0)) as Hrange; rewrite E in Hrange; cbn in Hrange; intuition discriminate.
Qed.

Lemma redeem_code_cache code self w res self' w' :
  redeem_code env code self w = (res, self', w') ->
  forall k,
    (is_Some (cache self' !! k) <-> is_Some (cache self !! k) \/ k = code)
    /\ (is_Some (cache self !! k) -> cache self' !! k = cache self !! k)
    /\ ((forall k', cache self !! k' <> Some IN_CACHE) ->
        cache self' !! k <> Some IN_CACHE).
Proof.
  intros H k. destruct (cache self !! code) as [r|] eqn:Hc.
  - rewrite redeem_code_cached in H by (rewrite Hc; eauto).
    injection H as <- <- <-. repeat split; auto.
    intros [Hk| ->]; [exact Hk | rewrite Hc; eauto].
  - destruct (redeem_code_spec _ _ _ _ _ _ Hc H) as (new & _ & _ & _ & Hca & _).
    rewrite Hca. destruct (decide (code = k)) as [->|Hne].
    + rewrite lookup_insert_eq. repeat split; eauto.
      * rewrite Hc. intros [x Hx]. discriminate Hx.
      * intros _ [= E]. revert E. apply last_outcome_range. discriminate.
    + rewrite lookup_insert_ne by exact Hne. repeat split; auto.
      intros [Hk| ->]; [exact Hk | contradiction].
Qed.

(** X20. Through any sequence of calls the cache is written once per code:
    its keys afterwards are its keys before and the codes of the calls, an
    entry that was there is not changed, and no entry is [IN_CACHE] (none
    being so before). *)
Theorem cache_is_written_once codes self w self' w' :
  redeem_all env codes self w = (self', w') ->
  forall k,
    (is_Some (cache self' !! k) <-> is_Some (cache self !! k) \/ In k codes)
    /\ (is_Some (cache self !! k) -> cache self' !! k = cache self !! k)
    /\ ((forall k', cache self !! k' <> Some IN_CACHE) ->
        cache self' !! k <> Some IN_CACHE).
Proof.
  revert self w. induction codes as [|code codes IH]; intros self w H k.
  - injection H as <- <-. cbn. split; [tauto|]. split; [tauto|]. intros Hall. apply Hall.
  - cbn [redeem_all] in H.
    destruct (redeem_code env code self w) as [[res self1] w1] eqn:H1.
    pose proof (redeem_code_cache _ _ _ _ _ _ H1) as Hstep.
    destruct (IH _ _ H k) as (Hkeys & Hkeep & Hnot).
    destruct (Hstep k) as (Hkeys1 & Hkeep1 & Hnot1).
    split; [|split].
    + rewrite Hkeys, Hkeys1. cbn. intuition auto.
    + intros Hk. rewrite Hkeep by (apply Hkeys1; now left). now apply Hkeep1.
    + intros Hall. apply Hnot. intros k'. now apply (proj2 (proj2 (Hstep k'))).
Qed.

(** ** A code met during a backoff *)

(** X21. A call on a code that is not cached, made while the backoff is
    active (or with an empty token dictionary), sends nothing and returns
    the first token, if any, with [RATE_LIMITED]; the code is cached all the
    same, so that every later call on it returns [(None, IN_CACHE)] and the
    code is never tried. *)
Theorem blocked_code_is_cached code self w :
  cache self !! code = None ->
  (tokens self <> [] ->
   backoff_active (time_at env (ticks w)) self = Some true) ->
  exists self' w',
    redeem_code env code self w
    = (Ok (head (dict_keys (tokens self)), RATE_LIMITED), self', w')
    /\ sent w' = sent w
    /\ cache self' = <[code := RATE_LIMITED]> (cache self)
    /\ (forall w2,
          redeem_code env code self' w2 = (Ok (None, IN_CACHE), self', w2)).
Proof.
  intros Hc Hb.
  destruct (redeem_code_blocked code self w Hc Hb)
    as (tok & self' & w' & H & Hs & _ & ->).
  exists self', w'. split; [exact H|]. split; [exact Hs|].
  destruct (redeem_code_spec _ _ _ _ _ _ Hc H) as (new & Hs' & _ & _ & Hca & _).
  rewrite Hs in Hs'. apply new_nil in Hs'. subst new. cbn in Hca.
  split; [exact Hca|]. intros w2. apply redeem_code_cached.
  rewrite Hca, lookup_insert_eq. eauto.
Qed.

End Loop.


(** ** The model at work *)

Section Runs.
Import NitroRedeemer Trace Scenario.
Local Open Scope list_scope.

Lemma run_eta {A B C} (x : A * B * C) (r : A) :
  result_of x = r -> x = (r, self_of x, world_of x).
Proof. destruct x as [[? ?] ?]. cbn. now intros ->. Qed.

(** A second call on a claimed code. *)
Lemma redeem_code_in_cache_witness :
  redeem_code (always claimed) "AbCdEf1234567890" has_claimed w0
  = (Ok (None, IN_CACHE), has_claimed, w0).
Proof.
  apply (redeem_code_in_cache (always claimed) "AbCdEf1234567890" has_claimed w0).
  exists CLAIMED. vm_compute. reflexivity.
Defined.

(** C2, as the specification words it, fails when the elapsed time is
    equal to the delay: 105 - 100 seconds have elapsed, which is not less
    than the delay of 5 seconds, and yet the call sends nothing. *)
Lemma backoff_blocks_at_equal_delay :
  rate_delay (rate_limits backing_off) = VNumber 5
  /\ ~ (time_at at_105 (ticks w0) - rate_timestamp (rate_limits backing_off)
        < 5)%Q
  /\ result_of (run at_105 "AbCdEf1234567890" backing_off)
     = Ok (Some "t1", RATE_LIMITED)
  /\ sent (world_of (run at_105 "AbCdEf1234567890" backing_off)) = [].
Proof.
  split; [reflexivity|]. split; [|split]; [|vm_compute; reflexivity..].
  vm_compute. discriminate.
Qed.

(** Both halves of the backoff test and the two calls around a
    rate-limited reply, on the clock that advances by one second per
    reading. *)
Lemma backoff_blocks_until_delay_exceeded_witness :
  redeem_loop at_105 "AbCdEf1234567890" ["t1"] false RATE_LIMITED None
    backing_off w0
  = (Ok (Some "t1", RATE_LIMITED), backing_off, tick 1 w0)
  /\ exists tok2 self2 w2,
      redeem_code (always rate_limited_5) "code2"
        (self_of (run (always rate_limited_5) "code1" two_tokens))
        (world_of (run (always rate_limited_5) "code1" two_tokens))
      = (Ok (tok2, RATE_LIMITED), self2, w2)
      /\ sent w2 = sent (world_of (run (always rate_limited_5) "code1" two_tokens)).
Proof.
  split.
  - apply (proj1 (backoff_blocks_until_delay_exceeded at_105)
             "AbCdEf1234567890" "t1" [] false RATE_LIMITED None backing_off w0
             None 5%Q); [reflexivity | reflexivity | reflexivity |].
    vm_compute. discriminate.
  - apply (proj2 (backoff_blocks_until_delay_exceeded (always rate_limited_5))
             "code1" two_tokens w0 (Some "t1")).
    + apply (run_eta (run (always rate_limited_5) "code1" two_tokens)).
      vm_compute. reflexivity.
    + vm_compute. discriminate.
    + intros earlier req reply _ [= <-]. reflexivity.
    + vm_compute. reflexivity.
    + vm_compute. discriminate.
Defined.

(** C5, as the specification words it, fails when the body of the
    rate-limited reply is not JSON: the call raises and the rate-limit state
    is not overwritten. *)
Lemma rate_limited_text_raises :
  ErrorHandler.handle_errors (text rate_limited_text) = RATE_LIMITED
  /\ result_of (run (always rate_limited_text) "code1" two_tokens)
     = Raise JSONDecodeError
  /\ rate_limits (self_of (run (always rate_limited_text) "code1" two_tokens))
     = rate_limits two_tokens
  /\ sent (world_of (run (always rate_limited_text) "code1" two_tokens))
     = [mkRequest "code1" "t1" None].
Proof. repeat split; vm_compute; reflexivity. Qed.

(** A rate-limited reply to the first of two tokens: the second is not
    tried and the backoff lasts 5 seconds from the reading 1003. *)
Lemma rate_limited_reply_sets_backoff_witness :
  rate_limits (recorded "code1" RATE_LIMITED
                 (latency (always rate_limited_5) w0) two_tokens)
  = rate_limits two_tokens
  /\ redeem_loop (always rate_limited_5) "code1" ["t1"; "t2"] false RATE_LIMITED
       None two_tokens w0
     = (Ok (Some "t1", RATE_LIMITED),
        with_rate_limits
          {| rate_timestamp := time_at (always rate_limited_5) (3 + ticks w0);
             rate_delay := VNumber 5 |}
          (recorded "code1" RATE_LIMITED (latency (always rate_limited_5) w0)
             two_tokens),
        tick 1 (attempted (mkRequest "code1" "t1" None) w0)).
Proof.
  apply (rate_limited_reply_sets_backoff (always rate_limited_5) "code1" "t1"
           ["t2"] false RATE_LIMITED None two_tokens w0 None rate_limited_5);
    vm_compute; reflexivity.
Defined.

(** Two unverified tokens: after the reply to the first one, [t1] is gone
    and the request that follows uses [t2]. *)
Lemma not_verified_token_is_dropped_witness :
  redeem_loop (always not_verified) "code1" ["t1"; "t2"] false RATE_LIMITED
    None two_tokens w0
  = redeem_loop (always not_verified) "code1" ["t2"] false NOT_VERIFIED
      (Some "t1")
      (without_token "t1"
         (recorded "code1" NOT_VERIFIED (latency (always not_verified) w0)
            two_tokens))
      (attempted (mkRequest "code1" "t1" None) w0)
  /\ ~ In "t1" (dict_keys (tokens (self_of (run (always not_verified) "code1"
                                              two_tokens))))
  /\ Forall (fun req' => authorization req' <> "t1")
       [mkRequest "code1" "t2" None].
Proof.
  split.
  - apply (proj1 (not_verified_token_is_dropped (always not_verified))
             "code1" "t1" ["t2"] false RATE_LIMITED None two_tokens w0 None
             not_verified); vm_compute; reflexivity.
  - destruct (proj2 (not_verified_token_is_dropped (always not_verified))
                "code1" two_tokens w0
                (Ok (Some "t2", NOT_VERIFIED))
                (self_of (run (always not_verified) "code1" two_tokens))
                (world_of (run (always not_verified) "code1" two_tokens))
                [] (mkRequest "code1" "t1" None) [mkRequest "code1" "t2" None])
      as (Hgone & Hafter & _).
    + apply (run_eta (run (always not_verified) "code1" two_tokens)).
      vm_compute. reflexivity.
    + vm_compute. reflexivity.
    + vm_compute. reflexivity.
    + split; [exact Hgone | exact Hafter].
Defined.

(** A claimed code: the second call answers from the cache. *)
Lemma redeem_code_reserves_code_witness :
  result_of (run (always claimed) "AbCdEf1234567890" one_token)
  = Ok (Some "t1", CLAIMED)
  /\ redeem_code (always claimed) "AbCdEf1234567890"
       (self_of (run (always claimed) "AbCdEf1234567890" one_token))
       (world_of (run (always claimed) "AbCdEf1234567890" one_token))
     = (Ok (None, IN_CACHE),
        self_of (run (always claimed) "AbCdEf1234567890" one_token),
        world_of (run (always claimed) "AbCdEf1234567890" one_token)).
Proof.
  split; [vm_compute; reflexivity|].
  destruct (redeem_code_reserves_code (always claimed) "AbCdEf1234567890"
              one_token w0 (Ok (Some "t1", CLAIMED))
              (self_of (run (always claimed) "AbCdEf1234567890" one_token))
              (world_of (run (always claimed) "AbCdEf1234567890" one_token)))
    as (new & _ & _ & _ & Hlater).
  - vm_compute. reflexivity.
  - apply (run_eta (run (always claimed) "AbCdEf1234567890" one_token)).
    vm_compute. reflexivity.
  - exact (proj2 (Hlater [] _ _ eq_refl)).
Defined.

(** The first token has no payment source and is told so; the second has
    none either and is passed over; the third has one and is tried. *)
Lemma no_payment_source_requires_payment_witness :
  redeem_loop (scripted [no_payment_source; claimed]) "code1" ["t1"; "t2"; "t3"]
    false RATE_LIMITED None three_tokens w0
  = redeem_loop (scripted [no_payment_source; claimed]) "code1" ["t2"; "t3"]
      true NO_PAYMENT_SOURCE (Some "t1")
      (recorded "code1" NO_PAYMENT_SOURCE
         (latency (scripted [no_payment_source; claimed]) w0) three_tokens)
      (attempted (mkRequest "code1" "t1" None) w0)
  /\ redeem_loop (scripted [no_payment_source; claimed]) "code1" ["t2"; "t3"]
       true NO_PAYMENT_SOURCE (Some "t1") three_tokens w0
     = redeem_loop (scripted [no_payment_source; claimed]) "code1" ["t3"]
         true NO_PAYMENT_SOURCE (Some "t2") three_tokens w0
  /\ List.map authorization
       (sent (world_of (run (scripted [no_payment_source; claimed]) "code1"
                          three_tokens)))
     = ["t1"; "t3"]
  /\ Forall (fun req' => truthy (payment_source_id req') = true)
       [mkRequest "code1" "t3" (Some "pay")].
Proof.
  split; [|split; [|split]].
  - apply (proj1 (no_payment_source_requires_payment
                    (scripted [no_payment_source; claimed]))
             "code1" "t1" ["t2"; "t3"] false RATE_LIMITED None three_tokens w0
             None no_payment_source); vm_compute; reflexivity.
  - apply (proj1 (proj2 (no_payment_source_requires_payment
                           (scripted [no_payment_source; claimed])))
             "code1" "t2" ["t3"] NO_PAYMENT_SOURCE (Some "t1") three_tokens w0
             None); reflexivity.
  - vm_compute. reflexivity.
  - apply (proj2 (proj2 (no_payment_source_requires_payment
                           (scripted [no_payment_source; claimed])))
             "code1" three_tokens w0 (Ok (Some "t3", CLAIMED))
             (self_of (run (scripted [no_payment_source; claimed]) "code1"
                         three_tokens))
             (world_of (run (scripted [no_payment_source; claimed]) "code1"
                          three_tokens))
             [] (mkRequest "code1" "t1" None)).
    + apply (run_eta (run (scripted [no_payment_source; claimed]) "code1"
                        three_tokens)).
      vm_compute. reflexivity.
    + vm_compute. reflexivity.
    + vm_compute. reflexivity.
Defined.

(** C9, as the specification words it, fails: the only request of this
    call uses [t1], and the token returned is [t2], which was passed over
    for want of a payment source. *)
Lemma redeem_code_returns_skipped_token :
  result_of (run (always no_payment_source) "code1" two_tokens)
  = Ok (Some "t2", NO_PAYMENT_SOURCE)
  /\ List.map authorization
       (sent (world_of (run (always no_payment_source) "code1" two_tokens)))
     = ["t1"].
Proof. split; vm_compute; reflexivity. Qed.

Lemma redeem_code_returns_last_reached_witness :
  (exists tok r self' w',
      redeem_code (always no_payment_source) "code1" two_tokens w0
      = (Ok (tok, r), self', w'))
  /\ exists new,
      sent (world_of (run (always no_payment_source) "code1" two_tokens))
      = sent w0 ++ new
      /\ Some "t2"
         = last (reached (always no_payment_source) (tokens two_tokens)
                   (List.length (sent w0)) (dict_keys (tokens two_tokens))
                   false new).
Proof.
  destruct (redeem_code_returns_last_reached (always no_payment_source)
              "code1" two_tokens w0 ltac:(vm_compute; reflexivity))
    as [Hreturns Hresult].
  split.
  - apply Hreturns.
    + intros n req. exists no_payment_source. split; [reflexivity|].
      vm_compute. discriminate.
    + apply NoDup_cons. split; [|apply NoDup_singleton].
      intros Hin. apply list_elem_of_singleton in Hin. discriminate Hin.
    + reflexivity.
  - destruct (Hresult (Some "t2") NO_PAYMENT_SOURCE
                (self_of (run (always no_payment_source) "code1" two_tokens))
                (world_of (run (always no_payment_source) "code1" two_tokens)))
      as (new & later & H1 & H2 & _).
    + apply (run_eta (run (always no_payment_source) "code1" two_tokens)).
      vm_compute. reflexivity.
    + exists new. auto.
Defined.
End Runs.

(** ** More of the model at work *)

Section MoreRuns.
Import Re ReSem NitroRedeemer Trace Effects Scenario Cases.
Local Open Scope list_scope.

Lemma run_pairing {A B C} (x : A * B * C) :
  x = (result_of x, self_of x, world_of x).
Proof. now destruct x as [[? ?] ?]. Qed.

Lemma find_codes_items_witness :
  exists link p w,
    In link links /\ wild_eq link p = true
    /\ all_word w = true /\ (16 <= String.length w <= 24)%nat
    /\ occurs_in (p +:+ "/" +:+ w) "check discord.gift/AbCdEf1234567890 out"
    /\ "AbCdEf1234567890" = remove_links (p +:+ "/" +:+ w)
    /\ (p = link -> "AbCdEf1234567890" = w).
Proof.
  apply (find_codes_items "check discord.gift/AbCdEf1234567890 out"
           "AbCdEf1234567890").
  vm_compute. now left.
Defined.

Lemma find_codes_short_text_witness :
  find_codes "discord.gift/AbCdEf123456789" = [].
Proof.
  apply (find_codes_short_text "discord.gift/AbCdEf123456789"). cbn. lia.
Defined.

Lemma find_codes_extracts_code_witness :
  find_codes "check discord.gift/AbCdEf1234567890 out"
  = "AbCdEf1234567890" :: find_codes " out".
Proof.
  apply (find_codes_extracts_code "check " "discord.gift" "AbCdEf1234567890"
           " out").
  - now left.
  - reflexivity.
  - cbn. lia.
  - right. reflexivity.
  - vm_compute. reflexivity.
Defined.

Lemma gift_re_rejects_short_code_witness :
  match_len gift_re "discord.com/gifts/AbCdEf123456789 out" = None.
Proof.
  apply (gift_re_rejects_short_code "discord.com/gifts" "AbCdEf123456789" " out").
  - right; right; now left.
  - reflexivity.
  - cbn. lia.
  - reflexivity.
Defined.

Lemma remove_links_without_slash_witness :
  remove_links "AbCdEf1234567890" = "AbCdEf1234567890".
Proof.
  apply (remove_links_without_slash "AbCdEf1234567890"). reflexivity.
Defined.

Lemma redeem_code_latency_samples_witness :
  exists new samples,
    sent (world_of unverified_run) = sent w0 ++ new
    /\ data (self_of unverified_run) = data two_tokens ++ samples
    /\ List.length samples
       = answered (always not_verified) (List.length (sent w0)) new
    /\ (forall tok r, result_of unverified_run = Ok (tok, r) ->
          List.length samples = List.length new).
Proof.
  exact (redeem_code_latency_samples (always not_verified) "code1" two_tokens
           w0 _ _ _ (run_pairing unverified_run)).
Defined.

Lemma redeem_code_token_pool_witness :
  tokens (self_of unverified_run) = []
  /\ exists new,
      sent (world_of unverified_run) = sent w0 ++ new
      /\ tokens (self_of unverified_run)
         = dict_del_all
             (dropped (always not_verified) (List.length (sent w0)) new)
             (tokens two_tokens)
      /\ sublist (tokens (self_of unverified_run)) (tokens two_tokens).
Proof.
  split; [vm_compute; reflexivity|].
  exact (redeem_code_token_pool (always not_verified) "code1" two_tokens
           w0 _ _ _ (run_pairing unverified_run)).
Defined.

Lemma redeem_code_prints_claimed_body_witness :
  stdout (world_of denied_run) = stdout w0
  /\ exists earlier req reply,
      sent (world_of claimed_run) = earlier ++ [req]
      /\ post_at (always claimed) (List.length earlier) req = Some reply
      /\ ErrorHandler.handle_errors (text reply) = CLAIMED
      /\ stdout (world_of claimed_run) = stdout w0 ++ [text reply].
Proof.
  split.
  - apply (proj1 (redeem_code_prints_claimed_body (always access_denied)
                    "code1" three_tokens w0 _ _ _ (run_pairing denied_run))).
    intros tok. vm_compute. discriminate.
  - apply (proj2 (redeem_code_prints_claimed_body (always claimed)
                    "code1" two_tokens w0 _ _ _ (run_pairing claimed_run))
             (Some "t1")).
    vm_compute. reflexivity.
Defined.

Lemma redeem_code_keeps_rate_limits_witness :
  rate_limits (self_of denied_run) = rate_limits three_tokens.
Proof.
  apply (redeem_code_keeps_rate_limits (always access_denied) "code1"
           three_tokens w0 _ _ _ (run_pairing denied_run)).
  left. intros tok. vm_compute. discriminate.
Defined.

Lemma terminal_reply_ends_call_witness :
  sent (world_of claimed_run) = [mkRequest "code1" "t1" None]
  /\ @nil Request = [].
Proof.
  split; [vm_compute; reflexivity|].
  apply (terminal_reply_ends_call (always claimed) "code1" two_tokens w0 _ _ _
           [] (mkRequest "code1" "t1" None) [] (run_pairing claimed_run)).
  - vm_compute. reflexivity.
  - vm_compute. tauto.
Defined.

Lemma requests_carry_stored_payment_witness :
  Forall (fun req =>
            url req
            = "https://discordapp.com/api/v8/entitlements/gift-codes/"
                +:+ "code1" +:+ "/redeem"
            /\ dict_get (authorization req) (tokens three_tokens)
               = Some (payment_source_id req))
    [mkRequest "code1" "t1" None; mkRequest "code1" "t2" None;
     mkRequest "code1" "t3" (Some "pay")].
Proof.
  apply (requests_carry_stored_payment (always access_denied) "code1"
           three_tokens w0 _ _ _ _ (run_pairing denied_run)).
  vm_compute. reflexivity.
Defined.

Lemma tokens_tried_in_order_witness :
  sublist ["t1"; "t2"] (dict_keys (tokens two_tokens))
  /\ (NoDup (dict_keys (tokens two_tokens)) -> NoDup ["t1"; "t2"]).
Proof.
  apply (tokens_tried_in_order (always not_verified) "code1" two_tokens w0
           _ _ _ [mkRequest "code1" "t1" None; mkRequest "code1" "t2" None]
           (run_pairing unverified_run)).
  vm_compute. reflexivity.
Defined.

(** A rate-limited reply whose [retry_after] is [null] is stored as it
    comes, and the next call raises at its backoff test. *)
Lemma redeem_code_raises_only_witness :
  result_of null_run = Ok (Some "t1", RATE_LIMITED)
  /\ rate_delay (rate_limits (self_of null_run)) = VNone
  /\ result_of after_null_run = Raise TypeError
  /\ ((TypeError = TypeError
       /\ sent (world_of after_null_run) = sent (world_of null_run)
       /\ is_number (rate_delay (rate_limits (self_of null_run))) = false)
      \/ exists earlier req,
          sent (world_of after_null_run) = earlier ++ [req]
          /\ (List.length (sent (world_of null_run)) <= List.length earlier)%nat
          /\ ((TypeError = ClientError
               /\ post_at (always rate_limited_null) (List.length earlier) req
                  = None)
              \/ exists reply,
                  post_at (always rate_limited_null) (List.length earlier) req
                  = Some reply
                  /\ ErrorHandler.handle_errors (text reply) = RATE_LIMITED
                  /\ ((TypeError = JSONDecodeError /\ json reply = None)
                      \/ (TypeError = TypeError /\ json reply = Some NotObject)
                      \/ (TypeError = KeyError "retry_after"
                          /\ json reply = Some (Object None))))).
Proof.
  split; [vm_compute; reflexivity|]. split; [vm_compute; reflexivity|].
  split; [vm_compute; reflexivity|].
  apply (redeem_code_raises_only (always rate_limited_null) "code2"
           (self_of null_run) (world_of null_run) TypeError
           (self_of after_null_run) (world_of after_null_run)).
  - apply NoDup_cons. split; [|apply NoDup_singleton].
    intros Hin. apply list_elem_of_singleton in Hin. discriminate Hin.
  - apply (run_eta after_null_run). vm_compute. reflexivity.
Defined.

Lemma delay_not_a_number_raises_witness :
  exists self',
    redeem_code (always rate_limited_null) "code2" (self_of null_run)
      (world_of null_run)
    = (Raise TypeError, self', tick 1 (world_of null_run))
    /\ cache self' = <[ "code2" := RATE_LIMITED ]> (cache (self_of null_run))
    /\ tokens self' = tokens (self_of null_run)
    /\ rate_limits self' = rate_limits (self_of null_run)
    /\ data self' = data (self_of null_run).
Proof.
  apply (delay_not_a_number_raises (always rate_limited_null) "code2"
           (self_of null_run) (world_of null_run)).
  - vm_compute. reflexivity.
  - vm_compute. discriminate.
  - vm_compute. reflexivity.
Defined.

Lemma clock_is_past_backoff (reply : Reply) (self : t) (n : nat) :
  rate_limits self = {| rate_timestamp := 0; rate_delay := VNumber 0 |} ->
  backoff_active (time_at (always reply) n) self = Some false.
Proof.
  intros E. apply (backoff_active_false _ _ 0); rewrite E; [reflexivity|].
  cbn. unfold clock.
  unfold Qlt, Qminus, Qplus, Qopp, inject_Z. cbn. lia.
Qed.

Lemma refused_code_tries_every_token_witness :
  exists self' w' new,
    redeem_code (always access_denied) "code1" three_tokens w0
    = (Ok (last (dict_keys (tokens three_tokens)), ACCESS_DENIED), self', w')
    /\ sent w' = sent w0 ++ new
    /\ List.map authorization new = dict_keys (tokens three_tokens)
    /\ tokens self' = tokens three_tokens.
Proof.
  apply (refused_code_tries_every_token (always access_denied) "code1"
           ACCESS_DENIED three_tokens w0).
  - now left.
  - intros n req. exists access_denied. split; [reflexivity|].
    vm_compute. reflexivity.
  - intros n. now apply clock_is_past_backoff.
  - vm_compute. reflexivity.
Defined.

Lemma cache_is_written_once_witness :
  (is_Some (cache (fst (redeem_all (always claimed) ["code1"; "code2"; "code1"]
                          one_token w0)) !! "code2")
   <-> is_Some (cache one_token !! "code2")
       \/ In "code2" ["code1"; "code2"; "code1"])
  /\ (is_Some (cache one_token !! "code2") ->
      cache (fst (redeem_all (always claimed) ["code1"; "code2"; "code1"]
                    one_token w0)) !! "code2"
      = cache one_token !! "code2")
  /\ ((forall k', cache one_token !! k' <> Some IN_CACHE) ->
      cache (fst (redeem_all (always claimed) ["code1"; "code2"; "code1"]
                    one_token w0)) !! "code2"
      <> Some IN_CACHE).
Proof.
  apply (cache_is_written_once (always claimed) ["code1"; "code2"; "code1"]
           one_token w0 _ _ (surjective_pairing _) "code2").
Defined.

Lemma blocked_code_is_cached_witness :
  exists self' w',
    redeem_code at_105 "AbCdEf1234567890" backing_off w0
    = (Ok (head (dict_keys (tokens backing_off)), RATE_LIMITED), self', w')
    /\ sent w' = sent w0
    /\ cache self' = <[ "AbCdEf1234567890" := RATE_LIMITED ]> (cache backing_off)
    /\ (forall w2,
          redeem_code at_105 "AbCdEf1234567890" self' w2
          = (Ok (None, IN_CACHE), self', w2)).
Proof.
  apply (blocked_code_is_cached at_105 "AbCdEf1234567890" backing_off w0).
  - vm_compute. reflexivity.
  - intros _. vm_compute. reflexivity.
Defined.
End MoreRuns.
